(** * Cancellation contexts (tleef/context-js)

    A shallow embedding of [src/context.js]: the [Context] class with its
    constructor, [set], [withDeadline], [withTimeout], [withValues] and
    [cancel], over an explicit JavaScript heap, a listener table per context
    (the part of Node's [EventEmitter] the class uses) and a timer queue with
    a simulated clock (the part of [setTimeout] / [Date.now] it uses).
    The module [TS] embeds [src/context.ts], the same class written in
    TypeScript, over the same heap.

    What the state holds.  Of an instance: the own data properties that the
    constructor and [set] assign, and the listeners of its [cancelled]
    event, which is what the own fields of the emitter ([_events],
    [_eventsCount], [_maxListeners]) amount to for this class.  Of a plain
    object: its own enumerable data properties.  Prototypes are not held:
    the methods a call looks up on a context are taken to be those of
    [Context.prototype] and of the emitter.  The calls of the class are
    thus modelled for the heaps in which no instance has an own property
    named after a method or after a field of the emitter and in which no
    prototype was replaced.  [set] assigns the own property under any name
    but [__proto__]; under [__proto__] it stores nothing or replaces the
    prototype, and then answers [Beyond].  A program ([exec]) makes no call
    of [set] under the name of a method or of a field of the emitter
    ([reserved]) and replaces no prototype, so that every state it reaches
    is such a heap ([pristine], [run_pristine]).

    What the model takes for granted besides: a value is data (there are no
    function values); a listener installed by the caller returns normally;
    the clock does not move during a call of the class, time passes between
    calls. *)

From stdpp Require Import gmap strings list fin_maps.
From Stdlib Require Import ZArith Lia.

Local Open Scope string_scope.
Local Open Scope list_scope.
Local Open Scope nat_scope.

(** ** JavaScript values *)

(** Numbers: the class only asks whether a number is an integer
    ([Number.isInteger]) and whether it is falsy.  [NInt z] is the
    integer-valued double [z], [NNaN] is NaN, [NOther] stands for every other
    double (1.1, Infinity, ...): truthy and not an integer. *)
Inductive number :=
  | NInt (z : Z)
  | NNaN
  | NOther.

(** A [Date] carries its time value: [Some t] milliseconds since the epoch,
    or [None] for an Invalid Date (time value NaN).  Dates are never mutated
    by the class and are modelled as immutable values.  [VObj l] is a
    reference to a plain object of the heap, [VCtx a] a reference to a
    [Context] instance. *)
Inductive value :=
  | VUndef
  | VNull
  | VBool (b : bool)
  | VNum (n : number)
  | VStr (s : string)
  | VDate (t : option Z)
  | VObj (l : nat)
  | VCtx (a : nat).

(** ToBoolean. *)
Definition truthy (v : value) : bool :=
  match v with
  | VUndef | VNull => false
  | VBool b => b
  | VNum (NInt z) => negb (z =? 0)%Z
  | VNum NNaN => false
  | VNum NOther => true
  | VStr s => negb (String.eqb s "")
  | VDate _ | VObj _ | VCtx _ => true
  end.

(** [v instanceof Context] *)
Definition is_context (v : value) : bool :=
  match v with VCtx _ => true | _ => false end.

(** [v instanceof Date] *)
Definition is_date (v : value) : bool :=
  match v with VDate _ => true | _ => false end.

(** [Number.isInteger(v)] *)
Definition is_integer (v : value) : bool :=
  match v with VNum (NInt _) => true | _ => false end.

(** [v === Object(v)]: true of objects, false of primitives. *)
Definition is_object (v : value) : bool :=
  match v with VDate _ | VObj _ | VCtx _ => true | _ => false end.

(** Modelled from the spec: [type.isString] of the package @tleef/type-js,
    which is not part of the sources.  The setter "must reject key = id
    unless value is a string". *)
Definition isString (v : value) : bool :=
  match v with VStr _ => true | _ => false end.

(** The range of time values a [Date] can hold (ECMAScript TimeClip): beyond
    8.64e15 ms either side of the epoch [new Date(t)] is an Invalid Date. *)
Definition max_time : Z := 8640000000000000.

Definition time_clip (t : Z) : option Z :=
  if (Z.abs t <=? max_time)%Z then Some t else None.

(** [new Date(t)] for a number [t]. *)
Definition new_Date (t : Z) : value := VDate (time_clip t).

(** ** The heap *)

(** A listener of the [cancelled] event is either the bound [cancel] of a
    context (what the constructor registers on the parent) or an observer
    installed by the caller with [on], which only records that it ran (the
    spies of the test suite). *)
Inductive listener :=
  | LCancel (a : nat)
  | LSpy (n : nat).

(** A [Context] instance: the own data properties that the constructor and
    [set] have assigned, and the listeners of its [cancelled] event in
    registration order.  The fields [super()] creates on the instance
    ([_events], [_eventsCount], [_maxListeners]) are the emitter's; they are
    not in [props], and [listeners] is what they hold for the class. *)
Record context := Ctx {
  props : gmap string value;
  listeners : list listener
}.

(** A pending [setTimeout(this.cancel.bind(this), delay)]: the context whose
    [cancel] runs, the delay that was asked for ([None] is NaN) and the clock
    value at which it is due. *)
Record timer := Timer {
  t_target : nat;
  t_delay : option Z;
  t_due : Z
}.

(** The whole program state.  Contexts and plain objects are allocated at the
    end of their store, so an address is an index.  [now] is [Date.now()];
    [uid] counts the identifiers handed out by [unique()]; [trace] records
    every listener call as (emitting context, listener), oldest first. *)
Record state := State {
  ctxs : list context;
  objs : list (gmap string value);
  timers : list timer;
  now : Z;
  uid : nat;
  trace : list (nat * listener)
}.

Definition set_ctxs (f : list context → list context) (s : state) : state :=
  State (f (ctxs s)) (objs s) (timers s) (now s) (uid s) (trace s).
Definition set_objs (f : list (gmap string value) → list (gmap string value))
    (s : state) : state :=
  State (ctxs s) (f (objs s)) (timers s) (now s) (uid s) (trace s).
Definition set_timers (q : list timer) (s : state) : state :=
  State (ctxs s) (objs s) q (now s) (uid s) (trace s).
Definition set_now (t : Z) (s : state) : state :=
  State (ctxs s) (objs s) (timers s) t (uid s) (trace s).
Definition set_uid (n : nat) (s : state) : state :=
  State (ctxs s) (objs s) (timers s) (now s) n (trace s).
Definition set_trace (f : list (nat * listener) → list (nat * listener))
    (s : state) : state :=
  State (ctxs s) (objs s) (timers s) (now s) (uid s) (f (trace s)).

(** The state of a program that has not created anything, at clock [t]. *)
Definition init (t : Z) : state := State [] [] [] t 0 [].

(** The own property [key] of a context, among those the constructor and
    [set] assign. *)
Definition own_prop (a : nat) (k : string) (s : state) : option value :=
  c ← ctxs s !! a; props c !! k.

(** [ctx[key]] for an attribute of the class: the own property when there
    is one, and [undefined] otherwise.  For [id], [cancelled], [deadline] and
    [values] that is the read of the source, since no prototype of a context
    defines them; under a name that a prototype defines (a method,
    [__proto__]) or that the emitter keeps on the instance, [ctx[key]] is the
    own property only when there is one. *)
Definition get_prop (a : nat) (k : string) (s : state) : value :=
  match ctxs s !! a with
  | Some c => default VUndef (props c !! k)
  | None => VUndef
  end.

(** The names the class and its callers look up on an instance to call a
    method, and the names under which the emitter keeps its state on the
    instance ([domain] is one in older versions of Node).  An own property
    under one of them changes what later calls do. *)
Definition method_name (k : string) : bool :=
  bool_decide (k ∈ ["on"; "emit"; "set"; "cancel"; "withDeadline";
                    "withTimeout"; "withValues"]).

Definition emitter_field (k : string) : bool :=
  bool_decide (k ∈ ["_events"; "_eventsCount"; "_maxListeners"; "domain"]).

Definition reserved (k : string) : bool := method_name k || emitter_field k.

(** [v] is [undefined] or a boolean, a number or a string: what the setter
    of [__proto__] ignores. *)
Definition unboxed (v : value) : bool :=
  match v with
  | VUndef | VBool _ | VNum _ | VStr _ => true
  | VNull | VDate _ | VObj _ | VCtx _ => false
  end.

(** [ctx[key] = v] for a data property: the own property [key] of [ctx]
    becomes [v]. *)
Definition write_prop (a : nat) (k : string) (v : value) (s : state) : state :=
  set_ctxs (alter (λ c, Ctx (<[k := v]> (props c)) (listeners c)) a) s.

Definition listeners_of (a : nat) (s : state) : list listener :=
  match ctxs s !! a with
  | Some c => listeners c
  | None => []
  end.

(** [ctx.on('cancelled', l)]: the emitter appends to the listener array. *)
Definition on (a : nat) (l : listener) (s : state) : state :=
  set_ctxs (alter (λ c, Ctx (props c) (listeners c ++ [l])) a) s.

(** [v.key] for the parent handed to the constructor: past the [instanceof]
    guard a truthy parent is a context. *)
Definition member (v : value) (k : string) (s : state) : value :=
  match v with
  | VCtx a => get_prop a k s
  | _ => VUndef
  end.

(** The own properties of the plain object at [l], and [o[k] = v] / [o[k]]
    on it as the caller of the library may write them.  [o.__proto__ = v]
    goes to the setter of [Object.prototype]: it creates no own property
    (it replaces the prototype, ignores [v] or throws).  [obj_read] is the
    own property [k], and [undefined] when the object has none. *)
Definition obj_at (l : nat) (s : state) : gmap string value :=
  default ∅ (objs s !! l).

Definition obj_write (l : nat) (k : string) (v : value) (s : state) : state :=
  if String.eqb k "__proto__" then s
  else set_objs (alter (λ m, <[k := v]> m) l) s.

Definition obj_read (l : nat) (k : string) (s : state) : value :=
  default VUndef (obj_at l s !! k).

(** [v[k]] for a value held in a context or an object, where [v] owns
    [k]. *)
Definition value_read (v : value) (k : string) (s : state) : value :=
  match v with
  | VObj l => obj_read l k s
  | VCtx a => get_prop a k s
  | _ => VUndef
  end.

(** [ctx.values[k1][k2]] and [ctx.values[k1][k2] = v]: a read and a write
    of a structure nested in the values of a context. *)
Definition read_path (c : nat) (k1 k2 : string) (s : state) : value :=
  value_read (value_read (get_prop c "values" s) k1 s) k2 s.

Definition write_path (c : nat) (k1 k2 : string) (v : value) (s : state)
    : state :=
  match value_read (get_prop c "values" s) k1 s with
  | VObj l => obj_write l k2 v s
  | _ => s
  end.

(** ** What the sources leave to the runtime *)

(** [unique_id n] is the [n]-th identifier [unique()] (package
    @tleef/unique-js) returns.  [timer_delay d] is the delay the timers of
    the runtime apply when [setTimeout] is asked for the delay [d] ([None]
    is NaN): [d] itself where the runtime honours it; Node applies 1 ms to a
    delay that is NaN, below 1 or above 2^31 - 1.  [lt_other a b] is [a < b]
    when [a] and [b] are not both Dates, and [exotic_props s v] the own
    enumerable properties [Object.assign] copies out of a string or out of
    an emitter: coercions the class can only reach once [set] has stored a
    deadline that is not a Date or values that are not a plain object.  The
    theorems hold for every runtime; where one depends on how a timer is
    delayed, it says so. *)
Record runtime := Runtime {
  unique_id : nat → string;
  timer_delay : option Z → Z;
  lt_other : value → value → bool;
  exotic_props : state → value → gmap string value
}.

(** ** Computations that may throw *)

(** A call returns, throws, or does what the state cannot hold ([Beyond],
    with the state in which the model stops). *)
Inductive outcome (A : Type) :=
  | Ret (a : A) (s : state)
  | Throw (msg : string) (s : state)
  | Beyond (s : state).
Arguments Ret {A} a s.
Arguments Throw {A} msg s.
Arguments Beyond {A} s.

Definition M (A : Type) : Type := state → outcome A.

Definition ret {A} (a : A) : M A := λ s, Ret a s.
Definition throw {A} (msg : string) : M A := λ s, Throw msg s.
Definition beyond {A} : M A := λ s, Beyond s.
Definition bind {A B} (m : M A) (f : A → M B) : M B :=
  λ s, match m s with
       | Ret a s' => f a s'
       | Throw msg s' => Throw msg s'
       | Beyond s' => Beyond s'
       end.
Definition gets {A} (f : state → A) : M A := λ s, Ret (f s) s.
Definition modify (f : state → state) : M unit := λ s, Ret tt (f s).

#[global] Instance M_ret : MRet M := @ret.
#[global] Instance M_bind : MBind M := λ A B f m, bind m f.

(** The state an operation leaves behind, whether it returned or threw. *)
Definition final {A} (o : outcome A) : state :=
  match o with Ret _ s => s | Throw _ s => s | Beyond s => s end.

(** The state a caller goes on with after a call that returned or threw;
    there is none after [Beyond]. *)
Definition settle {A} (o : outcome A) : option state :=
  match o with Ret _ s => Some s | Throw _ s => Some s | Beyond _ => None end.

(** The state after a call that returned. *)
Definition returned {A} (o : outcome A) : option state :=
  match o with Ret _ s => Some s | _ => None end.

Section Context_class.

Variable rt : runtime.

(** [a < b] (abstract relational comparison): two Dates compare by their
    time values, and every comparison with NaN is false. *)
Definition js_lt (a b : value) : bool :=
  match a, b with
  | VDate (Some x), VDate (Some y) => (x <? y)%Z
  | VDate _, VDate _ => false
  | _, _ => lt_other rt a b
  end.

(** The own enumerable properties [Object.assign] reads from a source:
    [undefined] and [null] are skipped, numbers, booleans and Dates have
    none. *)
Definition own_props (v : value) (s : state) : gmap string value :=
  match v with
  | VObj l => obj_at l s
  | VUndef | VNull | VBool _ | VNum _ | VDate _ => ∅
  | VStr _ | VCtx _ => exotic_props rt s v
  end.

(** What [Object.assign] stores on its target from the own properties [m]
    of a source.  It assigns key by key ([target[k] = source[k]]), and for
    the key [__proto__] that assignment goes to the setter of
    [Object.prototype], which stores no own property. *)
Definition assignable (m : gmap string value) : gmap string value :=
  delete "__proto__" m.

(** [Object.assign({}, src1, ..., srcn)]: a fresh object; a later source
    overrides an earlier one (stdpp's union keeps its left operand). *)
Definition object_assign (srcs : list value) : M value :=
  λ s, Ret (VObj (length (objs s)))
           (set_objs (λ os, os ++ [foldl (λ m v, assignable (own_props v s) ∪ m)
                                     ∅ srcs]) s).

(** Allocation of [this] and [super()]: an instance to which the class has
    assigned nothing yet, and an emitter without listeners. *)
Definition alloc_ctx : M nat :=
  λ s, Ret (length (ctxs s)) (set_ctxs (λ cs, cs ++ [Ctx ∅ []]) s).

(** [unique()] *)
Definition unique : M value :=
  λ s, Ret (VStr (unique_id rt (uid s))) (set_uid (S (uid s)) s).

(** [parent.on(CANCELLED, this.cancel.bind(this))] *)
Definition on_parent (parent : value) (l : listener) : M unit :=
  match parent with
  | VCtx p => modify (on p l)
  | _ => ret tt
  end.

(** [new Context(parent)].  The guard runs after [super()], which only
    touches the instance under construction: when it throws, that instance is
    unreachable, so it is allocated after the guard here. *)
Definition construct (parent : value) : M nat :=
  if truthy parent && negb (is_context parent) then
    throw "parent must be a Context"
  else
    this ← alloc_ctx;
    id ← (if truthy parent then gets (member parent "id") else unique);
    modify (write_prop this "id" id);;
    cancelled ← (if truthy parent then gets (member parent "cancelled")
                  else ret (VBool false));
    modify (write_prop this "cancelled" cancelled);;
    deadline ← (if truthy parent then gets (member parent "deadline")
                 else ret VNull);
    modify (write_prop this "deadline" deadline);;
    values ← (if truthy parent
               then (pv ← gets (member parent "values"); object_assign [pv])
               else object_assign []);
    modify (write_prop this "values" values);;
    (if truthy parent then on_parent parent (LCancel this) else ret tt);;
    ret this.

(** [this[key] = value].  Under [__proto__] the assignment goes to the
    setter of [Object.prototype]: it stores nothing when the value is not an
    object, and otherwise replaces the prototype of [this] (or throws, on a
    cycle), which a state does not hold.  Under any other name it creates or
    overwrites the own data property; under the name of a method or of a
    field of the emitter ([reserved]) that property changes what later calls
    on [this] do, which [exec] does not follow. *)
Definition assign (this : nat) (key : string) (v : value) : M unit :=
  if String.eqb key "__proto__" then
    if unboxed v then ret tt else beyond
  else modify (write_prop this key v).

(** [this.set(key, value)] *)
Definition set (this : nat) (key : string) (v : value) : M nat :=
  if String.eqb key "id" && negb (isString v) then
    throw "id must be a String"
  else
    assign this key v;;
    ret this.

(** Insertion of a timer into the queue: after every timer that is due no
    later, so that timers run by due time and, at equal due times, in the
    order they were set. *)
Fixpoint enqueue (t : timer) (q : list timer) : list timer :=
  match q with
  | [] => [t]
  | u :: q' => if (t_due t <? t_due u)%Z then t :: q else u :: enqueue t q'
  end.

(** [setTimeout(target.cancel.bind(target), delay)]: the timer is due once
    the delay the runtime applies has passed. *)
Definition setTimeout (target : nat) (delay : option Z) : M unit :=
  modify (λ s, set_timers
    (enqueue (Timer target delay (now s + timer_delay rt delay)) (timers s)) s).

(** [Math.max(d.getTime() - Date.now(), 0)]; NaN when [d] is an Invalid
    Date. *)
Definition timeout_of (t : option Z) (n : Z) : option Z :=
  match t with
  | Some z => Some (Z.max (z - n) 0)
  | None => None
  end.

(** [this.withDeadline(deadline)] *)
Definition withDeadline (this : nat) (deadline : value) : M nat :=
  if negb (is_date deadline) then
    throw "deadline must be a Date"
  else
    ctx ← construct (VCtx this);
    cur ← gets (get_prop ctx "deadline");
    if negb (truthy cur) || js_lt deadline cur then
      set ctx "deadline" deadline;;
      d ← gets (get_prop ctx "deadline");
      n ← gets now;
      match d with
      | VDate t => setTimeout this (timeout_of t n);; ret ctx
      | _ => throw "TypeError: ctx.deadline.getTime is not a function"
      end
    else ret ctx.

(** [Date.now() + ms] handed to [new Date]: [ms] has passed
    [Number.isInteger].  The sum of the doubles is the sum of the integers
    whenever that is in the range of Dates, and is out of the range
    otherwise. *)
Definition date_after (n : Z) (ms : value) : value :=
  match ms with
  | VNum (NInt z) => new_Date (n + z)
  | _ => VDate None
  end.

(** [this.withTimeout(ms)] *)
Definition withTimeout (this : nat) (ms : value) : M nat :=
  if negb (is_integer ms) then
    throw "ms must be an Integer"
  else
    n ← gets now;
    withDeadline this (date_after n ms).

(** [this.withValues(values)] *)
Definition withValues (this : nat) (values : value) : M nat :=
  if negb (is_object values) then
    throw "values must be an Object"
  else
    ctx ← construct (VCtx this);
    cv ← gets (get_prop ctx "values");
    merged ← object_assign [cv; values];
    set ctx "values" merged;;
    ret ctx.

(** A listener call, as the trace records it. *)
Definition notify (src : nat) (l : listener) (s : state) : state :=
  set_trace (λ tr, tr ++ [(src, l)]) s.

(** [this.emit(CANCELLED)]: the emitter calls the listeners registered at
    the time of the call one after the other, in registration order; each
    call runs to completion before the next listener is called. *)
Fixpoint emit (invoke : listener → state → option state) (src : nat)
    (ls : list listener) (s : state) : option state :=
  match ls with
  | [] => Some s
  | l :: ls' => s' ← invoke l (notify src l s); emit invoke src ls' s'
  end.

(** [this.cancel()]: [this.set('cancelled', true)], which returns (the
    key is not [id], see [set_cancelled]), then [this.emit(CANCELLED)].  A
    bound [cancel] of a child is a nested call; the recursion follows the
    listener graph, so the definition takes fuel and [None] means that the
    fuel ran out. *)
Fixpoint cancel_fuel (n : nat) (this : nat) (s : state) : option state :=
  match n with
  | O => None
  | S n' =>
      s1 ← returned (set this "cancelled" (VBool true) s);
      emit (λ l, match l with
                 | LCancel child => cancel_fuel n' child
                 | LSpy _ => Some
                 end)
           this (listeners_of this s1) s1
  end.

(** A chain of nested [cancel] calls visits distinct contexts (a child is
    created after its parent), so one unit of fuel per context is enough:
    see [cancel_total]. *)
Definition cancel (this : nat) (s : state) : option state :=
  cancel_fuel (S (length (ctxs s))) this s.

(** The timers of the queue that are due at [target] fire in queue order;
    each sets the clock to its due time and calls [cancel] on its context.
    A timer fires once and leaves the queue. *)
Fixpoint run_timers (target : Z) (q : list timer) (s : state) : option state :=
  match q with
  | [] => Some (set_timers [] s)
  | t :: q' =>
      if (t_due t <=? target)%Z then
        s' ← cancel (t_target t)
               (set_now (Z.max (now s) (t_due t)) (set_timers q' s));
        run_timers target q' s'
      else Some (set_timers q s)
  end.

(** The clock advances by [d] milliseconds (the [clock.tick(d)] of the test
    suite). *)
Definition tick (d : Z) (s : state) : option state :=
  s' ← run_timers (now s + d) (timers s) s;
  Some (set_now (now s + d) s').



(** ** Programs over the class *)

(** The calls a program can make: the operations of the class, [on] with an
    observer, the passage of time, and the creation and mutation of plain
    objects. *)
Inductive op :=
  | ONew (parent : value)
  | OSet (this : nat) (key : string) (v : value)
  | OWithDeadline (this : nat) (deadline : value)
  | OWithTimeout (this : nat) (ms : value)
  | OWithValues (this : nat) (values : value)
  | OCancel (this : nat)
  | OOn (this : nat) (spy : nat)
  | OTick (d : Z)
  | OAlloc (m : gmap string value)
  | OWrite (l : nat) (k : string) (v : value).

(** An own property [__proto__] that holds an object or [null]:
    [Object.assign] from an object that has one replaces the prototype of
    its target. *)
Definition proto_entry (m : gmap string value) : bool :=
  match m !! "__proto__" with
  | Some v => negb (unboxed v)
  | None => false
  end.

(** A reference is live when it points into the heap. *)
Definition live (v : value) (s : state) : bool :=
  match v with
  | VCtx a => bool_decide (a < length (ctxs s))
  | VObj l => bool_decide (l < length (objs s))
  | _ => true
  end.

(** One call.  A method runs on a live receiver and a program only holds
    live references; a call that throws leaves the state it threw in.
    A program stays within the heaps a state stands for: it calls [set]
    under no name of a method or of a field of the emitter, and it replaces
    no prototype, neither that of a context nor, through an own property
    [__proto__] that holds an object, that of a plain object.
    [None]: no such call, or [cancel] ran out of fuel. *)
Definition exec (o : op) (s : state) : option state :=
  match o with
  | ONew parent =>
      if live parent s then Some (final (construct parent s)) else None
  | OSet this key v =>
      if live (VCtx this) s && negb (reserved key)
      then settle (set this key v s) else None
  | OWithDeadline this deadline =>
      if live (VCtx this) s then Some (final (withDeadline this deadline s))
      else None
  | OWithTimeout this ms =>
      if live (VCtx this) s then Some (final (withTimeout this ms s)) else None
  | OWithValues this values =>
      if live (VCtx this) s && live values s
      then Some (final (withValues this values s)) else None
  | OCancel this =>
      if live (VCtx this) s then cancel this s else None
  | OOn this spy =>
      if live (VCtx this) s then Some (on this (LSpy spy) s) else None
  | OTick d =>
      if (0 <=? d)%Z then tick d s else None
  | OAlloc m =>
      if proto_entry m then None else Some (set_objs (λ os, os ++ [m]) s)
  | OWrite l k v =>
      if live (VObj l) s && (negb (String.eqb k "__proto__") || unboxed v)
      then Some (obj_write l k v s) else None
  end.

Fixpoint run (os : list op) (s : state) : option state :=
  match os with
  | [] => Some s
  | o :: os' => s' ← exec o s; run os' s'
  end.

(** The derivations: the constructor with a parent and the three [with]
    methods. *)
Inductive derivation :=
  | DNew
  | DDeadline (deadline : value)
  | DTimeout (ms : value)
  | DValues (values : value).

Definition derive (d : derivation) (this : nat) : M nat :=
  match d with
  | DNew => construct (VCtx this)
  | DDeadline deadline => withDeadline this deadline
  | DTimeout ms => withTimeout this ms
  | DValues values => withValues this values
  end.

End Context_class.

(** ** Predicates and views the statements use *)

(** The heap invariant: a bound [cancel] registered on a context belongs to
    a context created later (the constructor registers [this] on a parent
    that exists already). *)
Definition wf_heap (s : state) : Prop :=
  ∀ a b, LCancel b ∈ listeners_of a s → a < b < length (ctxs s).

(** The state invariant: the heap invariant, and the contexts that pending
    timers point to exist. *)
Definition wf (s : state) : Prop :=
  wf_heap s ∧ Forall (λ t, t_target t < length (ctxs s)) (timers s).

(** The heaps a state stands for, which the calls a program makes keep: no
    context has an own property named after a method or after a field of
    the emitter, and no plain object has an own property [__proto__] that
    holds an object (from such an object [Object.assign] would replace the
    prototype of its target). *)
Definition pristine (s : state) : Prop :=
  (∀ a k, reserved k = true → own_prop a k s = None)
  ∧ (∀ l, proto_entry (obj_at l s) = false).

(** What a run of [cancel] inside the set [P] of contexts can change: the
    [cancelled] attribute of contexts of [P], which it can only turn to
    [true], and the trace, which grows by calls emitted from [P]. *)
Definition confined (P : nat → Prop) (s s' : state) : Prop :=
  length (ctxs s') = length (ctxs s)
  ∧ (∀ a, listeners_of a s' = listeners_of a s)
  ∧ (∀ a k, k ≠ "cancelled" ∨ ¬ P a → get_prop a k s' = get_prop a k s)
  ∧ (∀ a, get_prop a "cancelled" s' = get_prop a "cancelled" s
          ∨ get_prop a "cancelled" s' = VBool true)
  ∧ objs s' = objs s ∧ timers s' = timers s ∧ now s' = now s ∧ uid s' = uid s
  ∧ ∃ tr, trace s' = trace s ++ tr ∧ Forall (λ e, P e.1) tr.

(** The same through the passage of time, which also moves the clock and
    takes timers off the queue. *)
Definition drifts (P : nat → Prop) (s s' : state) : Prop :=
  confined P (set_now (now s') (set_timers (timers s') s)) s'.

(** [P] is closed under the listener graph. *)
Definition closed (P : nat → Prop) (s : state) : Prop :=
  ∀ a b, P a → LCancel b ∈ listeners_of a s → P b.

(** [d] is [a] or is reached from [a] through bound [cancel] listeners: the
    contexts derived from [a], at any depth. *)
Inductive descends (s : state) : nat → nat → Prop :=
  | descends_refl a : descends s a a
  | descends_step a b d :
      LCancel b ∈ listeners_of a s → descends s b d → descends s a d.



(** What calls leave of the contexts that exist, when [set] has assigned at
    most the attributes [W]: the contexts stay, their listeners are only
    added to, their other attributes are kept, except that [cancelled] may
    have become [true]. *)
Definition evolves (W : string → Prop) (s s' : state) : Prop :=
  length (ctxs s) ≤ length (ctxs s')
  ∧ (∀ a, a < length (ctxs s) →
          ∃ ls, listeners_of a s' = listeners_of a s ++ ls)
  ∧ (∀ a k, a < length (ctxs s) → k ≠ "cancelled" → ¬ W k →
            get_prop a k s' = get_prop a k s)
  ∧ (¬ W "cancelled" → ∀ a, a < length (ctxs s) →
          get_prop a "cancelled" s' = get_prop a "cancelled" s
          ∨ get_prop a "cancelled" s' = VBool true).

(** What a derivation from [p] leaves: one more context, which has the
    [id] and the [cancelled] of [p], its own fresh [values] object and its
    bound [cancel] at the end of the listeners of [p]; the contexts that
    existed keep their attributes; at most one timer, on [p], is new. *)
Definition derives (p : nat) (s s' : state) : Prop :=
  length (ctxs s') = S (length (ctxs s))
  ∧ (∀ a k, a < length (ctxs s) → get_prop a k s' = get_prop a k s)
  ∧ (∀ k, k = "id" ∨ k = "cancelled" →
          get_prop (length (ctxs s)) k s' = get_prop p k s)
  ∧ (∀ a, listeners_of a s'
          = if decide (a = p)
            then listeners_of p s ++ [LCancel (length (ctxs s))]
            else listeners_of a s)
  ∧ (∃ os, objs s' = objs s ++ os
           ∧ ∃ o, get_prop (length (ctxs s)) "values" s' = VObj o
                  ∧ length (objs s) ≤ o < length (objs s'))
  ∧ now s' = now s ∧ uid s' = uid s ∧ trace s' = trace s
  ∧ (timers s' = timers s
     ∨ ∃ t, t_target t = p ∧ timers s' = enqueue t (timers s)).

(** A call of [set] that assigns the attribute [k]. *)
Definition sets_key (k : string) (o : op) : Prop :=
  match o with
  | OSet _ key _ => key = k
  | _ => False
  end.

Section Views.

Variable rt : runtime.

(** The arbitration test of [withDeadline]:
    [!ctx.deadline || deadline < ctx.deadline]. *)
Definition adopts (deadline cur : value) : bool :=
  negb (truthy cur) || js_lt rt deadline cur.

(** The state [new Context(parent)] leaves for a parent [p], assignment by
    assignment. *)
Definition derived_state (p : nat) (s : state) : state :=
  let this := length (ctxs s) in
  let s0 := set_ctxs (λ cs, cs ++ [Ctx ∅ []]) s in
  let s1 := write_prop this "id" (get_prop p "id" s0) s0 in
  let s2 := write_prop this "cancelled" (get_prop p "cancelled" s1) s1 in
  let s3 := write_prop this "deadline" (get_prop p "deadline" s2) s2 in
  let s4 := set_objs
              (λ os, os ++ [assignable (own_props rt (get_prop p "values" s3) s3)
                            ∪ ∅]) s3 in
  let s5 := write_prop this "values" (VObj (length (objs s3))) s4 in
  on p (LCancel this) s5.

(** The state [new Context()] leaves. *)
Definition root_state (s : state) : state :=
  let this := length (ctxs s) in
  let s0 := set_ctxs (λ cs, cs ++ [Ctx ∅ []]) s in
  let s1 := write_prop this "id" (VStr (unique_id rt (uid s0)))
              (set_uid (S (uid s0)) s0) in
  let s2 := write_prop this "cancelled" (VBool false) s1 in
  let s3 := write_prop this "deadline" VNull s2 in
  let s4 := set_objs (λ os, os ++ [∅]) s3 in
  write_prop this "values" (VObj (length (objs s3))) s4.

(** The timer [withDeadline] sets on its receiver for the deadline [t]. *)
Definition deadline_timer (this : nat) (t : option Z) (s : state) : timer :=
  Timer this (timeout_of t (now s))
    (now s + timer_delay rt (timeout_of t (now s))).

(** The state [withDeadline] leaves for a deadline with time value [t]. *)
Definition deadline_state (this : nat) (t : option Z) (s : state) : state :=
  let s1 := derived_state this s in
  if adopts (VDate t) (get_prop this "deadline" s) then
    set_timers (enqueue (deadline_timer this t s) (timers s))
      (write_prop (length (ctxs s)) "deadline" (VDate t) s1)
  else s1.

(** The state [withValues] leaves for an object [values]. *)
Definition values_state (this : nat) (values : value) (s : state) : state :=
  let ctx := length (ctxs s) in
  let s1 := derived_state this s in
  let merged := assignable (own_props rt values s1)
                ∪ (assignable (own_props rt (get_prop ctx "values" s1) s1)
                   ∪ ∅) in
  write_prop ctx "values" (VObj (length (objs s1)))
    (set_objs (λ os, os ++ [merged]) s1).

(** [chain s c s' c']: from the context [c] in the state [s], derivations,
    each from the context the one before returned, and calls in between that
    do not assign [id], lead to the context [c'] in the state [s']. *)
Inductive chain : state → nat → state → nat → Prop :=
  | chain_here s c : chain s c s c
  | chain_call s c o s1 s' c' :
      exec rt o s = Some s1 → ¬ sets_key "id" o →
      chain s1 c s' c' → chain s c s' c'
  | chain_derive s c d c1 s1 s' c' :
      derive rt d c s = Ret c1 s1 →
      chain s1 c1 s' c' → chain s c s' c'.

(** The derivation a call makes, and its receiver. *)
Definition derivation_of (o : op) : option (derivation * nat) :=
  match o with
  | ONew (VCtx p) => Some (DNew, p)
  | OWithDeadline this deadline => Some (DDeadline deadline, this)
  | OWithTimeout this ms => Some (DTimeout ms, this)
  | OWithValues this values => Some (DValues values, this)
  | _ => None
  end.

(** The calls of a program by what they leave ([exec_step]): the state as
    it was (a call that threw, an assignment to [__proto__] of a value that
    is not an object), a root, a derived context, an own property assigned
    by [set], a cancellation, an observer, the passage of time, an object
    or a property of one. *)
Inductive step : op → state → state → Prop :=
  | step_same o s : step o s s
  | step_root v s c s' :
      truthy v = false → construct rt v s = Ret c s' → step (ONew v) s s'
  | step_derive o d p s c s' :
      derivation_of o = Some (d, p) → p < length (ctxs s) →
      derive rt d p s = Ret c s' → step o s s'
  | step_set this k v s :
      this < length (ctxs s) → reserved k = false → k ≠ "__proto__" →
      k ≠ "id" ∨ isString v = true →
      step (OSet this k v) s (write_prop this k v s)
  | step_cancel this s s' :
      this < length (ctxs s) → cancel this s = Some s' →
      step (OCancel this) s s'
  | step_on this n s :
      this < length (ctxs s) → step (OOn this n) s (on this (LSpy n) s)
  | step_tick d s s' :
      (0 ≤ d)%Z → tick d s = Some s' → step (OTick d) s s'
  | step_alloc m s :
      proto_entry m = false →
      step (OAlloc m) s (set_objs (λ os, os ++ [m]) s)
  | step_write l k v s :
      l < length (objs s) → k ≠ "__proto__" →
      step (OWrite l k v) s (set_objs (alter (λ m, <[k := v]> m) l) s).

(** The messages of the errors the class throws itself, on its guards. *)
Definition guard_messages : list string :=
  ["parent must be a Context"; "id must be a String";
   "deadline must be a Date"; "ms must be an Integer";
   "values must be an Object"].

(** An operation threw one of the errors of the class. *)
Definition invalid_argument {A} (r : outcome A) : Prop :=
  match r with
  | Throw m _ => m ∈ guard_messages
  | Ret _ _ | Beyond _ => False
  end.

End Views.

(** ** Chains of derivations *)

Section Chains.

Variable rt : runtime.

(** [c.d1(...).d2(...)...]: each derivation is applied to the context the
    one before returned; a derivation that throws ends the chain. *)
Fixpoint derive_chain (ds : list derivation) (c : nat) : M nat :=
  match ds with
  | [] => ret c
  | d :: ds' => c1 ← derive rt d c; derive_chain ds' c1
  end.

(** The entries a derivation supplies to the values of the context it
    returns: those of the plain object handed to [withValues]; a Date has no
    entries, and the other derivations supply none. *)
Definition supplied (d : derivation) (s : state) : gmap string value :=
  match d with
  | DValues (VObj m) => obj_at m s
  | _ => ∅
  end.

(** The argument of [withValues], when there is one, is a plain object of
    the heap or a Date. *)
Definition plain_arg (s : state) (d : derivation) : Prop :=
  match d with
  | DValues (VObj m) => m < length (objs s)
  | DValues (VDate _) => True
  | DValues _ => False
  | _ => True
  end.

(** The entries of a chain over the entries [base]: each derivation's
    entries go over those before it. *)
Definition overlay (ds : list derivation) (s : state)
    (base : gmap string value) : gmap string value :=
  foldl (λ acc d, supplied d s ∪ acc) base ds.

End Chains.

(** The time value a derivation offers as a deadline, when it is a valid
    one: that of the Date handed to [withDeadline], or the clock plus the
    integer handed to [withTimeout]. *)
Definition offered (n : Z) (d : derivation) : option Z :=
  match d with
  | DDeadline (VDate t) => t
  | DTimeout (VNum (NInt z)) => time_clip (n + z)
  | _ => None
  end.

(** The earliest of [t0] and the time values a chain offers. *)
Definition earliest (n : Z) (t0 : Z) (ds : list derivation) : Z :=
  foldl (λ acc d, match offered n d with
                  | Some t => Z.min acc t
                  | None => acc
                  end) t0 ds.



(** ** The TypeScript class *)

(** [src/context.ts]: the class with its state in the private fields [_id],
    [_cancelled], [_deadline] and [_values] behind the accessors [id],
    [cancelled], [deadline] and [values], and without [set].  The guard
    [this instanceof Context] of its constructor holds of every instance
    made with [new], the only way the model makes one. *)
Module TS.

(** The accessors. *)
Definition id (this : nat) (s : state) : value := get_prop this "_id" s.
Definition cancelled (this : nat) (s : state) : value :=
  get_prop this "_cancelled" s.
Definition deadline (this : nat) (s : state) : value :=
  get_prop this "_deadline" s.
Definition values (this : nat) (s : state) : value :=
  get_prop this "_values" s.

(** [parent.id], [parent.cancelled], ... for the parent handed to the
    constructor: past the [instanceof] guard a truthy parent is a context. *)
Definition read (parent : value) (get : nat → state → value) (s : state)
    : value :=
  match parent with
  | VCtx p => get p s
  | _ => VUndef
  end.

(** [(d && d.getTime()) || 0] for the deadline [d] of a context: the time
    value of a Date, and 0 for a deadline that is absent and for an Invalid
    Date, whose time value NaN is falsy; [None] when [d] is an object without
    [getTime]. *)
Definition deadline_time (d : value) : option Z :=
  match d with
  | VDate (Some z) => Some z
  | VDate None => Some 0%Z
  | _ => if truthy d then None else Some 0%Z
  end.

Section Context_class.

Variable rt : runtime.

(** [new Context(parent)] *)
Definition construct (parent : value) : M nat :=
  if truthy parent && negb (is_context parent) then
    throw "parent must be a Context"
  else
    this ← alloc_ctx;
    i ← (if truthy parent then gets (read parent id) else unique rt);
    modify (write_prop this "_id" i);;
    c ← (if truthy parent then gets (read parent cancelled)
          else ret (VBool false));
    modify (write_prop this "_cancelled" c);;
    dl ← (if truthy parent then gets (read parent deadline) else ret VUndef);
    modify (write_prop this "_deadline" dl);;
    vs ← (if truthy parent
           then (pv ← gets (read parent values); object_assign rt [pv])
           else object_assign rt []);
    modify (write_prop this "_values" vs);;
    (if truthy parent then on_parent parent (LCancel this) else ret tt);;
    ret this.

(** [this.withDeadline(deadline)] *)
Definition withDeadline (this : nat) (dl : value) : M nat :=
  if negb (is_date dl) then
    throw "deadline must be a Date"
  else
    ctx ← construct (VCtx this);
    cur ← gets (deadline ctx);
    if negb (truthy cur) || js_lt rt dl cur then
      modify (write_prop ctx "_deadline" dl);;
      d ← gets (deadline ctx);
      n ← gets now;
      match deadline_time d with
      | Some z => setTimeout rt this (Some (Z.max (z - n) 0));; ret ctx
      | None => throw "TypeError: ctx.deadline.getTime is not a function"
      end
    else ret ctx.

(** [this.withTimeout(ms)] *)
Definition withTimeout (this : nat) (ms : value) : M nat :=
  if negb (is_integer ms) then
    throw "ms must be an Integer"
  else
    n ← gets now;
    withDeadline this (date_after n ms).

(** [this.withValues(values)] *)
Definition withValues (this : nat) (vs : value) : M nat :=
  if negb (is_object vs) then
    throw "values must be an Object"
  else
    ctx ← construct (VCtx this);
    cv ← gets (values ctx);
    merged ← object_assign rt [cv; vs];
    modify (write_prop ctx "_values" merged);;
    ret ctx.

(** [this.cancel()], with fuel as for the JavaScript class. *)
Fixpoint cancel_fuel (n : nat) (this : nat) (s : state) : option state :=
  match n with
  | O => None
  | S n' =>
      let s1 := write_prop this "_cancelled" (VBool true) s in
      emit (λ l, match l with
                 | LCancel child => cancel_fuel n' child
                 | LSpy _ => Some
                 end)
           this (listeners_of this s1) s1
  end.

Definition cancel (this : nat) (s : state) : option state :=
  cancel_fuel (S (length (ctxs s))) this s.

(** The timers of the queue that are due call this class's [cancel]. *)
Fixpoint run_timers (target : Z) (q : list timer) (s : state) : option state :=
  match q with
  | [] => Some (set_timers [] s)
  | t :: q' =>
      if (t_due t <=? target)%Z then
        s' ← cancel (t_target t)
               (set_now (Z.max (now s) (t_due t)) (set_timers q' s));
        run_timers target q' s'
      else Some (set_timers q s)
  end.

Definition tick (d : Z) (s : state) : option state :=
  s' ← run_timers (now s + d) (timers s) s;
  Some (set_now (now s + d) s').

Definition derive (d : derivation) (this : nat) : M nat :=
  match d with
  | DNew => construct (VCtx this)
  | DDeadline dl => withDeadline this dl
  | DTimeout ms => withTimeout this ms
  | DValues vs => withValues this vs
  end.

(** One call of a program over the class.  The private fields are out of
    the program's reach and the class has no [set]: [OSet] is no call. *)
Definition exec (o : op) (s : state) : option state :=
  match o with
  | ONew parent =>
      if live parent s then Some (final (construct parent s)) else None
  | OSet _ _ _ => None
  | OWithDeadline this dl =>
      if live (VCtx this) s then Some (final (withDeadline this dl s))
      else None
  | OWithTimeout this ms =>
      if live (VCtx this) s then Some (final (withTimeout this ms s)) else None
  | OWithValues this vs =>
      if live (VCtx this) s && live vs s
      then Some (final (withValues this vs s)) else None
  | OCancel this =>
      if live (VCtx this) s then cancel this s else None
  | OOn this spy =>
      if live (VCtx this) s then Some (on this (LSpy spy) s) else None
  | OTick d =>
      if (0 <=? d)%Z then tick d s else None
  | OAlloc m =>
      if proto_entry m then None else Some (set_objs (λ os, os ++ [m]) s)
  | OWrite l k v =>
      if live (VObj l) s && (negb (String.eqb k "__proto__") || unboxed v)
      then Some (obj_write l k v s) else None
  end.

Fixpoint run (os : list op) (s : state) : option state :=
  match os with
  | [] => Some s
  | o :: os' => s' ← exec o s; run os' s'
  end.

(** The state [new Context(parent)] leaves for a parent [p], assignment by
    assignment, and the states the [with] methods leave. *)
Definition derived_state (p : nat) (s : state) : state :=
  let this := length (ctxs s) in
  let s0 := set_ctxs (λ cs, cs ++ [Ctx ∅ []]) s in
  let s1 := write_prop this "_id" (id p s0) s0 in
  let s2 := write_prop this "_cancelled" (cancelled p s1) s1 in
  let s3 := write_prop this "_deadline" (deadline p s2) s2 in
  let s4 := set_objs
              (λ os, os ++ [assignable (own_props rt (values p s3) s3) ∪ ∅])
              s3 in
  let s5 := write_prop this "_values" (VObj (length (objs s3))) s4 in
  on p (LCancel this) s5.

Definition root_state (s : state) : state :=
  let this := length (ctxs s) in
  let s0 := set_ctxs (λ cs, cs ++ [Ctx ∅ []]) s in
  let s1 := write_prop this "_id" (VStr (unique_id rt (uid s0)))
              (set_uid (S (uid s0)) s0) in
  let s2 := write_prop this "_cancelled" (VBool false) s1 in
  let s3 := write_prop this "_deadline" VUndef s2 in
  let s4 := set_objs (λ os, os ++ [∅]) s3 in
  write_prop this "_values" (VObj (length (objs s3))) s4.

Definition deadline_state (this : nat) (t : option Z) (s : state) : state :=
  let s1 := derived_state this s in
  if adopts rt (VDate t) (deadline this s) then
    set_timers
      (enqueue (Timer this (Some (Z.max (default 0%Z t - now s) 0))
                  (now s + timer_delay rt
                             (Some (Z.max (default 0%Z t - now s) 0))))
         (timers s))
      (write_prop (length (ctxs s)) "_deadline" (VDate t) s1)
  else s1.

Definition values_state (this : nat) (vs : value) (s : state) : state :=
  let ctx := length (ctxs s) in
  let s1 := derived_state this s in
  let merged := assignable (own_props rt vs s1)
                ∪ (assignable (own_props rt (values ctx s1) s1) ∪ ∅) in
  write_prop ctx "_values" (VObj (length (objs s1)))
    (set_objs (λ os, os ++ [merged]) s1).

End Context_class.

End TS.

(** ** The two classes side by side *)

(** The deadline of a context in the JavaScript class and in the TypeScript
    class: absent ([null] in the one, [undefined] in the other) or the same
    Date. *)
Definition same_deadline (dj dt : value) : Prop :=
  (dj = VNull ∧ dt = VUndef) ∨ ∃ t, dj = VDate t ∧ dt = VDate t.





(** What a program over the TypeScript class leaves of the contexts that
    exist: they stay, every private field but [_cancelled] keeps its value,
    and [_cancelled] stays [true] once it is. *)
Definition ts_keeps (t t' : state) : Prop :=
  length (ctxs t) ≤ length (ctxs t')
  ∧ (∀ a k, a < length (ctxs t) → k ≠ "_cancelled" →
            get_prop a k t' = get_prop a k t)
  ∧ (∀ a, TS.cancelled a t = VBool true → TS.cancelled a t' = VBool true).


Section Comparable.

Variable rt : runtime.


End Comparable.

(** ** A concrete runtime and concrete programs *)

(** The delays of Node's timers. *)
Definition node_delay (d : option Z) : Z :=
  match d with
  | Some z => if (1 <=? z)%Z && (z <=? 2147483647)%Z then z else 1
  | None => 1
  end.

(** Identifiers [u], [uu], [uuu], ...; Node's timers; the comparisons and
    copies left to the runtime answer [false] and the empty object. *)
Fixpoint tally (n : nat) : string :=
  match n with
  | O => "u"
  | S n' => "u" +:+ tally n'
  end.

Definition rt0 : runtime := Runtime tally node_delay (λ _ _, false) (λ _ _, ∅).

(** [root = new Context()] at clock 0, and [root.cancel()] after it. *)
Definition one_root : state := final (construct rt0 VUndef (init 0)).

(** [root], two contexts derived from it, a context derived from the first
    of them, and an observer on that first one. *)
Definition family : state :=
  default (init 0)
    (run rt0 [ONew VUndef; ONew (VCtx 0); ONew (VCtx 0); ONew (VCtx 1);
              OOn 1 7] (init 0)).

(** [root] with two plain objects beside it, [{one: 1, two: 2}] and
    [{two: 'a', three: 'b'}]. *)
Definition with_objects : state :=
  default (init 0)
    (run rt0 [OAlloc (<["one" := VNum (NInt 1)]> {["two" := VNum (NInt 2)]});
              OAlloc (<["two" := VStr "a"]> {["three" := VStr "b"]});
              ONew VUndef] (init 0)).

(** [new Context()] of the TypeScript class at clock 0. *)
Definition ts_one_root : state := final (TS.construct rt0 VUndef (init 0)).


(** ** The heap primitives *)

Section Heap_lemmas.

Implicit Types (s : state) (a b : nat) (k : string) (v : value)
  (l : listener) (c : context).

Lemma get_prop_ge a k s : length (ctxs s) ≤ a → get_prop a k s = VUndef.
Proof. intros H. unfold get_prop. by rewrite lookup_ge_None_2. Qed.

Lemma get_prop_lt a k s : get_prop a k s ≠ VUndef → a < length (ctxs s).
Proof.
  intros H. destruct (decide (a < length (ctxs s))) as [|Hge]; [done|].
  exfalso. apply H, get_prop_ge. lia.
Qed.

Lemma listeners_of_ge a s : length (ctxs s) ≤ a → listeners_of a s = [].
Proof. intros H. unfold listeners_of. by rewrite lookup_ge_None_2. Qed.

Lemma length_write_prop a k v s :
  length (ctxs (write_prop a k v s)) = length (ctxs s).
Proof. apply length_alter. Qed.

Lemma length_on a l s : length (ctxs (on a l s)) = length (ctxs s).
Proof. apply length_alter. Qed.

Lemma get_prop_write_eq a k v s :
  a < length (ctxs s) → get_prop a k (write_prop a k v s) = v.
Proof.
  intros H. unfold get_prop, write_prop; simpl.
  rewrite list_lookup_alter_eq.
  destruct (lookup_lt_is_Some_2 _ _ H) as [c ->]; simpl.
  by rewrite lookup_insert_eq.
Qed.

Lemma get_prop_write_ne a a' k k' v s :
  a ≠ a' ∨ k ≠ k' → get_prop a' k' (write_prop a k v s) = get_prop a' k' s.
Proof.
  intros H. unfold get_prop, write_prop; simpl.
  destruct (decide (a = a')) as [->|Hne].
  - rewrite list_lookup_alter_eq. destruct (ctxs s !! a'); simpl; [|done].
    rewrite lookup_insert_ne; [done|]. intros Hk. by destruct H as [H|H]; apply H.
  - by rewrite list_lookup_alter_ne.
Qed.

Lemma get_prop_on a b k l s : get_prop a k (on b l s) = get_prop a k s.
Proof.
  unfold get_prop, on; simpl. destruct (decide (b = a)) as [->|Hne].
  - rewrite list_lookup_alter_eq. by destruct (ctxs s !! a).
  - by rewrite list_lookup_alter_ne.
Qed.

Lemma listeners_of_write_prop a b k v s :
  listeners_of a (write_prop b k v s) = listeners_of a s.
Proof.
  unfold listeners_of, write_prop; simpl. destruct (decide (b = a)) as [->|Hne].
  - rewrite list_lookup_alter_eq. by destruct (ctxs s !! a).
  - by rewrite list_lookup_alter_ne.
Qed.

Lemma listeners_of_on_eq a l s :
  a < length (ctxs s) → listeners_of a (on a l s) = listeners_of a s ++ [l].
Proof.
  intros H. unfold listeners_of, on; simpl. rewrite list_lookup_alter_eq.
  by destruct (lookup_lt_is_Some_2 _ _ H) as [c ->].
Qed.

Lemma listeners_of_on_ne a b l s :
  a ≠ b → listeners_of a (on b l s) = listeners_of a s.
Proof.
  intros H. unfold listeners_of, on; simpl. by rewrite list_lookup_alter_ne.
Qed.

Lemma get_prop_alloc a k c s :
  a < length (ctxs s) →
  get_prop a k (set_ctxs (λ cs, cs ++ [c]) s) = get_prop a k s.
Proof. intros H. unfold get_prop; simpl. by rewrite lookup_app_l. Qed.

Lemma get_prop_alloc_new k c s :
  get_prop (length (ctxs s)) k (set_ctxs (λ cs, cs ++ [c]) s)
  = default VUndef (props c !! k).
Proof. unfold get_prop; simpl. by rewrite list_lookup_middle. Qed.

Lemma listeners_of_alloc a c s :
  a < length (ctxs s) →
  listeners_of a (set_ctxs (λ cs, cs ++ [c]) s) = listeners_of a s.
Proof. intros H. unfold listeners_of; simpl. by rewrite lookup_app_l. Qed.

Lemma listeners_of_alloc_new c s :
  listeners_of (length (ctxs s)) (set_ctxs (λ cs, cs ++ [c]) s) = listeners c.
Proof. unfold listeners_of; simpl. by rewrite list_lookup_middle. Qed.

Lemma length_alloc c s :
  length (ctxs (set_ctxs (λ cs, cs ++ [c]) s)) = S (length (ctxs s)).
Proof. simpl. rewrite length_app. simpl. lia. Qed.

Lemma obj_at_alloc (o : nat) (m : gmap string value) s :
  o < length (objs s) →
  obj_at o (set_objs (λ os, os ++ [m]) s) = obj_at o s.
Proof. intros H. unfold obj_at; simpl. by rewrite lookup_app_l. Qed.

Lemma obj_at_alloc_new (m : gmap string value) s :
  obj_at (length (objs s)) (set_objs (λ os, os ++ [m]) s) = m.
Proof. unfold obj_at; simpl. by rewrite list_lookup_middle. Qed.

Lemma obj_write_proto (o : nat) v s : obj_write o "__proto__" v s = s.
Proof. reflexivity. Qed.

Lemma obj_write_other (o : nat) k v s :
  k ≠ "__proto__" →
  obj_write o k v s = set_objs (alter (λ m, <[k := v]> m) o) s.
Proof.
  intros H. unfold obj_write.
  by destruct (String.eqb_spec k "__proto__").
Qed.

Lemma obj_at_write_eq (o : nat) k v s :
  k ≠ "__proto__" → o < length (objs s) →
  obj_at o (obj_write o k v s) = <[k := v]> (obj_at o s).
Proof.
  intros Hk H. rewrite obj_write_other by done.
  unfold obj_at; simpl. rewrite list_lookup_alter_eq.
  by destruct (lookup_lt_is_Some_2 _ _ H) as [m ->].
Qed.

Lemma obj_at_write_ne (o o' : nat) k v s :
  o ≠ o' → obj_at o' (obj_write o k v s) = obj_at o' s.
Proof.
  intros H. unfold obj_write. destruct (String.eqb k "__proto__"); [done|].
  unfold obj_at; simpl. by rewrite list_lookup_alter_ne.
Qed.

Lemma own_prop_ge a k s : length (ctxs s) ≤ a → own_prop a k s = None.
Proof. intros H. unfold own_prop. by rewrite lookup_ge_None_2. Qed.

Lemma get_prop_own a k s : get_prop a k s = default VUndef (own_prop a k s).
Proof. unfold get_prop, own_prop. by destruct (ctxs s !! a). Qed.

Lemma own_prop_write_eq a k v s :
  a < length (ctxs s) → own_prop a k (write_prop a k v s) = Some v.
Proof.
  intros H. unfold own_prop, write_prop; simpl.
  rewrite list_lookup_alter_eq.
  destruct (lookup_lt_is_Some_2 _ _ H) as [c ->]; simpl.
  by rewrite lookup_insert_eq.
Qed.

Lemma own_prop_write_ne a a' k k' v s :
  a ≠ a' ∨ k ≠ k' → own_prop a' k' (write_prop a k v s) = own_prop a' k' s.
Proof.
  intros H. unfold own_prop, write_prop; simpl.
  destruct (decide (a = a')) as [->|Hne].
  - rewrite list_lookup_alter_eq. destruct (ctxs s !! a'); simpl; [|done].
    rewrite lookup_insert_ne; [done|]. intros Hk. by destruct H as [H|H]; apply H.
  - by rewrite list_lookup_alter_ne.
Qed.

Lemma own_prop_on a b k l s : own_prop a k (on b l s) = own_prop a k s.
Proof.
  unfold own_prop, on; simpl. destruct (decide (b = a)) as [->|Hne].
  - rewrite list_lookup_alter_eq. by destruct (ctxs s !! a).
  - by rewrite list_lookup_alter_ne.
Qed.

Lemma own_prop_alloc a k c s :
  a < length (ctxs s) →
  own_prop a k (set_ctxs (λ cs, cs ++ [c]) s) = own_prop a k s.
Proof. intros H. unfold own_prop; simpl. by rewrite lookup_app_l. Qed.

Lemma own_prop_alloc_new k c s :
  own_prop (length (ctxs s)) k (set_ctxs (λ cs, cs ++ [c]) s) = props c !! k.
Proof. unfold own_prop; simpl. by rewrite list_lookup_middle. Qed.

(** The own properties of the contexts are a matter of the contexts. *)
Lemma own_prop_ctxs a k s s' : ctxs s' = ctxs s → own_prop a k s' = own_prop a k s.
Proof. intros H. unfold own_prop. by rewrite H. Qed.

Lemma pristine_same s s' :
  ctxs s' = ctxs s → objs s' = objs s → pristine s → pristine s'.
Proof.
  intros Hc Ho [H1 H2]. split.
  - intros a k Hk. rewrite (own_prop_ctxs a k s s') by done. by apply H1.
  - intros l. unfold obj_at. rewrite Ho. apply H2.
Qed.

Lemma pristine_write a k v s :
  reserved k = false → pristine s → pristine (write_prop a k v s).
Proof.
  intros Hk [H1 H2]. split; [|exact H2].
  intros b k' Hk'. rewrite own_prop_write_ne; [by apply H1|].
  right. intros ->. congruence.
Qed.

Lemma pristine_on a l s : pristine s → pristine (on a l s).
Proof.
  intros [H1 H2]. split; [|exact H2].
  intros b k Hk. rewrite own_prop_on. by apply H1.
Qed.

Lemma pristine_alloc s :
  pristine s → pristine (set_ctxs (λ cs, cs ++ [Ctx ∅ []]) s).
Proof.
  intros [H1 H2]. split; [|exact H2].
  intros b k Hk. destruct (decide (b < length (ctxs s))) as [Hlt|Hge].
  - rewrite own_prop_alloc by done. by apply H1.
  - destruct (decide (b = length (ctxs s))) as [-> | Hne].
    + by rewrite own_prop_alloc_new.
    + apply own_prop_ge. simpl. rewrite length_app. simpl. lia.
Qed.

Lemma proto_entry_none (m : gmap string value) :
  m !! "__proto__" = None → proto_entry m = false.
Proof. intros H. unfold proto_entry. by rewrite H. Qed.

Lemma pristine_new_obj (m : gmap string value) s :
  proto_entry m = false → pristine s →
  pristine (set_objs (λ os, os ++ [m]) s).
Proof.
  intros Hm [H1 H2]. split; [exact H1|].
  intros l. destruct (decide (l < length (objs s))) as [Hlt|Hge].
  - rewrite obj_at_alloc by done. apply H2.
  - destruct (decide (l = length (objs s))) as [-> | Hne].
    + by rewrite obj_at_alloc_new.
    + unfold obj_at. simpl. rewrite lookup_ge_None_2; [done|].
      rewrite length_app. simpl. lia.
Qed.

Lemma pristine_obj_write (o : nat) k v s :
  k ≠ "__proto__" → pristine s →
  pristine (set_objs (alter (λ m, <[k := v]> m) o) s).
Proof.
  intros Hk [H1 H2]. split; [exact H1|].
  intros l. unfold obj_at. simpl.
  destruct (decide (o = l)) as [-> | Hne].
  - rewrite list_lookup_alter_eq. specialize (H2 l). unfold obj_at in H2.
    destruct (objs s !! l) as [m|]; simpl in *; [|done].
    unfold proto_entry in *. by rewrite lookup_insert_ne.
  - rewrite list_lookup_alter_ne by done. apply H2.
Qed.

Lemma assignable_union (m1 m2 : gmap string value) :
  assignable (m1 ∪ m2) = assignable m1 ∪ assignable m2.
Proof. apply delete_union. Qed.

Lemma assignable_idemp (m : gmap string value) :
  assignable (assignable m) = assignable m.
Proof. apply delete_id, lookup_delete_eq. Qed.

Lemma assignable_lookup (m : gmap string value) k :
  k ≠ "__proto__" → assignable m !! k = m !! k.
Proof. intros H. by apply lookup_delete_ne. Qed.

Lemma assignable_proto (m : gmap string value) :
  assignable m !! "__proto__" = None.
Proof. apply lookup_delete_eq. Qed.

Lemma assignable_id (m : gmap string value) :
  m !! "__proto__" = None → assignable m = m.
Proof. apply delete_id. Qed.

End Heap_lemmas.

(** ** Cancellation *)

Section Cancel_lemmas.

Implicit Types (s : state) (a b : nat) (k : string) (v : value)
  (l : listener) (P : nat → Prop).

Lemma confined_refl P s : confined P s s.
Proof.
  split_and!; auto. exists []. by rewrite app_nil_r.
Qed.

Lemma confined_trans P s1 s2 s3 :
  confined P s1 s2 → confined P s2 s3 → confined P s1 s3.
Proof.
  intros (L1 & Ls1 & F1 & C1 & O1 & T1 & N1 & U1 & tr1 & Tr1 & A1)
         (L2 & Ls2 & F2 & C2 & O2 & T2 & N2 & U2 & tr2 & Tr2 & A2).
  split_and!; [congruence| | | |congruence..|].
  - intros a. by rewrite Ls2.
  - intros a k H. by rewrite F2, F1.
  - intros a. destruct (C2 a) as [-> | ->]; auto.
  - exists (tr1 ++ tr2). split; [|by apply Forall_app].
    by rewrite Tr2, Tr1, app_assoc.
Qed.

Lemma confined_write P a s :
  P a → confined P s (write_prop a "cancelled" (VBool true) s).
Proof.
  intros Ha. split_and!; auto using length_write_prop, listeners_of_write_prop.
  - intros b k [Hk|Hb]; apply get_prop_write_ne; [by right|left; congruence].
  - intros b. destruct (decide (a = b)) as [<- | Hne].
    + destruct (decide (a < length (ctxs s))).
      * right. by apply get_prop_write_eq.
      * left. rewrite !get_prop_ge; [done|lia|rewrite length_write_prop; lia].
    + left. apply get_prop_write_ne. by left.
  - exists []. by rewrite app_nil_r.
Qed.

Lemma confined_notify P a l s : P a → confined P s (notify a l s).
Proof.
  intros Ha. split_and!; auto. exists [(a, l)]. split; [done|].
  by apply Forall_singleton.
Qed.

Lemma closed_confined P s s' : confined P s s' → closed P s → closed P s'.
Proof. intros (_ & Ls & _) H a b Ha Hb. rewrite Ls in Hb. eauto. Qed.

Lemma emit_confined P invoke a ls :
  P a →
  (∀ l s1 s2, l ∈ ls → closed P s1 → invoke l s1 = Some s2 → confined P s1 s2) →
  ∀ s s', closed P s → emit invoke a ls s = Some s' → confined P s s'.
Proof.
  intros Ha. induction ls as [|l ls IH]; intros Hinv s s' Hcl; simpl.
  - intros [= <-]. apply confined_refl.
  - destruct (invoke l (notify a l s)) as [s1|] eqn:E; simpl; [|done].
    intros Hs'.
    assert (confined P s s1) as H1.
    { eapply confined_trans; [by apply confined_notify|].
      eapply Hinv; [by left| |done].
      eapply closed_confined; [by apply confined_notify|done]. }
    eapply confined_trans; [done|].
    apply IH; [|by eapply closed_confined|done].
    intros l' s2 s3 Hl'. apply Hinv. by right.
Qed.

Lemma cancel_fuel_confined P n : ∀ a s s',
  closed P s → P a → cancel_fuel n a s = Some s' → confined P s s'.
Proof.
  induction n as [|n IH]; intros a s s' Hcl Ha; simpl; [done|].
  intros H.
  eapply confined_trans; [by apply confined_write|].
  eapply emit_confined in H; [done|done| |].
  - intros l s1 s2 Hl Hcl1 Hinv. destruct l as [b|m].
    + apply IH in Hinv; [done|done|].
      rewrite listeners_of_write_prop in Hl. eapply Hcl; [done|].
      done.
    + injection Hinv as <-. apply confined_refl.
  - eapply closed_confined; [by apply confined_write|done].
Qed.

Lemma wf_heap_confined P s s' :
  confined P s s' → wf_heap s → wf_heap s'.
Proof.
  intros (L & Ls & _) H a b. rewrite Ls, L. apply H.
Qed.

Lemma wf_confined P s s' : confined P s s' → wf s → wf s'.
Proof.
  intros Hc [H1 H2]. split; [by eapply wf_heap_confined|].
  destruct Hc as (L & _ & _ & _ & _ & T & _). by rewrite T, L.
Qed.

Lemma descends_confined P s s' a d :
  confined P s s' → descends s a d → descends s' a d.
Proof.
  intros (_ & Ls & _) H. induction H as [|a b d Hb _ IH]; [by constructor|].
  eapply descends_step; [|done]. by rewrite Ls.
Qed.

(** Once [true], [cancelled] stays [true] through a run of [cancel]. *)
Lemma confined_keeps P s s' a :
  confined P s s' →
  get_prop a "cancelled" s = VBool true → get_prop a "cancelled" s' = VBool true.
Proof. intros (_ & _ & _ & C & _) H. destruct (C a) as [-> | ->]; auto. Qed.

Lemma confined_weaken (P Q : nat → Prop) s s' :
  (∀ a, P a → Q a) → confined P s s' → confined Q s s'.
Proof.
  intros HPQ (L & Ls & F & C & O & T & N & U & tr & Tr & A).
  split_and!; try done.
  - intros a k [Hk|Ha]; apply F; [by left|right; naive_solver].
  - exists tr. split; [done|]. eapply Forall_impl; [done|]. simpl. auto.
Qed.

(** [set] with the key [cancelled] is the plain assignment. *)
Lemma set_cancelled a v s :
  set a "cancelled" v s = Ret a (write_prop a "cancelled" v s).
Proof. reflexivity. Qed.

Lemma cancel_fuel_S n a s :
  cancel_fuel (S n) a s
  = emit (λ l, match l with
               | LCancel child => cancel_fuel n child
               | LSpy _ => Some
               end)
      a (listeners_of a (write_prop a "cancelled" (VBool true) s))
      (write_prop a "cancelled" (VBool true) s).
Proof. reflexivity. Qed.

(** Three ways to reason about a run of [emit]: it returns when every call
    does, a fact one call establishes and the others keep holds at the end,
    and the calls emitted from [a] are the listeners in order when the calls
    themselves emit nothing from [a]. *)
Lemma emit_total (I : state → Prop) invoke a ls :
  (∀ l s1, l ∈ ls → I s1 → ∃ s2, invoke l (notify a l s1) = Some s2 ∧ I s2) →
  ∀ s, I s → ∃ s', emit invoke a ls s = Some s'.
Proof.
  induction ls as [|l ls IH]; intros Hinv s Hs; simpl; [by eexists|].
  destruct (Hinv l s) as (s2 & -> & H2); [by left|done|]. simpl.
  apply IH; [|done]. intros l' s1 Hl'. apply Hinv. by right.
Qed.

Lemma emit_reaches (I Q : state → Prop) invoke a l0 ls :
  (∀ l s1 s2, l ∈ ls → I s1 → invoke l (notify a l s1) = Some s2 →
              I s2 ∧ (Q s1 → Q s2) ∧ (l = l0 → Q s2)) →
  ∀ s s', I s → Q s ∨ l0 ∈ ls → emit invoke a ls s = Some s' → Q s'.
Proof.
  induction ls as [|l ls IH]; intros Hinv s s' Hs HQ; simpl.
  - intros [= <-]. destruct HQ as [?|H]; [done|]. by apply elem_of_nil in H.
  - destruct (invoke l (notify a l s)) as [s2|] eqn:E; simpl; [|done].
    destruct (Hinv l s s2) as (H2 & HQ2 & Hl0); [by left|done..|].
    apply IH; [|done|].
    + intros l' s1 s3 Hl'. apply Hinv. by right.
    + destruct HQ as [?|H]; [left; auto|].
      apply elem_of_cons in H as [<- | H]; [left; auto|by right].
Qed.

Lemma filter_none {A} (P : A → Prop) `{∀ x, Decision (P x)} (xs : list A) :
  Forall (λ x, ¬ P x) xs → filter P xs = [].
Proof.
  induction 1 as [|x xs Hx _ IH]; [done|]. by rewrite filter_cons_False.
Qed.

Lemma emit_trace (I : state → Prop) invoke a ls :
  (∀ l s1, I s1 → I (notify a l s1)) →
  (∀ l s1 s2, l ∈ ls → I s1 → invoke l s1 = Some s2 →
              I s2 ∧ ∃ tr, trace s2 = trace s1 ++ tr
                           ∧ Forall (λ e, e.1 ≠ a) tr) →
  ∀ s s', I s → emit invoke a ls s = Some s' →
  ∃ tr, trace s' = trace s ++ tr
        ∧ filter (λ e, e.1 = a) tr = (λ l, (a, l)) <$> ls.
Proof.
  intros Hn. induction ls as [|l ls IH]; intros Hinv s s' Hs; simpl.
  - intros [= <-]. exists []. by rewrite app_nil_r.
  - destruct (invoke l (notify a l s)) as [s2|] eqn:E; simpl; [|done].
    intros Hem.
    destruct (Hinv l (notify a l s) s2) as (H2 & tr2 & Htr2 & Hall);
      [by left|by apply Hn|done|].
    destruct (IH (λ l' s1 s3 Hl', Hinv l' s1 s3 (list_elem_of_further _ _ _ Hl'))
                 s2 s' H2 Hem) as (tr & Htr & Hf).
    exists ((a, l) :: tr2 ++ tr). split.
    + rewrite Htr, Htr2. simpl. by rewrite <- !app_assoc.
    + rewrite filter_cons_True by done. f_equal.
      rewrite filter_app, Hf.
      by rewrite (filter_none _ tr2).
Qed.

(** Enough fuel: [cancel] returns. *)
Lemma cancel_fuel_total n : ∀ a s,
  wf_heap s → length (ctxs s) ≤ a + n → 0 < n → ∃ s', cancel_fuel n a s = Some s'.
Proof.
  induction n as [|n IH]; intros a s Hwf Hn Hpos; [lia|]. simpl.
  set (s1 := write_prop a "cancelled" (VBool true) s).
  assert (confined (λ _, True) s s1) as Hc1 by by apply confined_write.
  apply (emit_total (confined (λ _, True) s)); [|done].
  intros l s2 Hl Hc2.
  assert (confined (λ _, True) s (notify a l s2)) as Hc3.
  { eapply confined_trans; [done|]. by apply confined_notify. }
  destruct l as [b|m]; [|by eexists].
  assert (a < b < length (ctxs s)) as [Hab Hb].
  { apply Hwf. unfold s1 in Hl. by rewrite listeners_of_write_prop in Hl. }
  destruct (IH b (notify a (LCancel b) s2)) as [s3 Hs3].
  - by eapply wf_heap_confined.
  - destruct Hc3 as (-> & _). lia.
  - lia.
  - exists s3. split; [done|]. eapply confined_trans; [done|].
    by eapply cancel_fuel_confined.
Qed.

Lemma cancel_total a s : wf_heap s → ∃ s', cancel a s = Some s'.
Proof. intros H. apply cancel_fuel_total; [done|lia..]. Qed.

Lemma cancel_confined P a s s' :
  closed P s → P a → cancel a s = Some s' → confined P s s'.
Proof. apply cancel_fuel_confined. Qed.

(** [cancel] reaches every context derived from its receiver. *)
Lemma cancel_fuel_descends n : ∀ a s s' d,
  cancel_fuel n a s = Some s' → descends s a d → d < length (ctxs s) →
  get_prop d "cancelled" s' = VBool true.
Proof.
  induction n as [|n IH]; intros a s s' d; simpl; [done|].
  set (s1 := write_prop a "cancelled" (VBool true) s).
  intros Hem Hd Hlen.
  assert (confined (λ _, True) s s1) as Hc1 by by apply confined_write.
  assert (∀ l s2 s3, confined (λ _, True) s s2 →
            match l with
            | LCancel child => cancel_fuel n child
            | LSpy _ => Some
            end (notify a l s2) = Some s3 →
            confined (λ _, True) s2 s3) as Hstep.
  { intros l s2 s3 Hc2 E.
    eapply confined_trans; [by apply (confined_notify _ a l)|].
    destruct l; [by eapply cancel_fuel_confined|].
    injection E as <-. apply confined_refl. }
  destruct Hd as [a|a b d Hb Hd].
  - (* the receiver itself: set by the assignment, kept by the calls *)
    assert (get_prop a "cancelled" s1 = VBool true) as H1
      by by apply get_prop_write_eq.
    eapply (emit_reaches
              (λ s2, confined (λ _, True) s s2
                     ∧ get_prop a "cancelled" s2 = VBool true)
              (λ s2, get_prop a "cancelled" s2 = VBool true) _ _ (LSpy 0));
      [|split; [exact Hc1|exact H1]|by left|exact Hem].
    intros l s2 s3 Hl [Hc2 H2] E. pose proof (Hstep _ _ _ Hc2 E) as Hc3.
    pose proof (confined_keeps _ _ _ a Hc3 H2) as H3.
    split; [split; [by eapply confined_trans|done]|done].
  - (* below the child [b]: set by the call of [b], kept by the others *)
    eapply (emit_reaches (confined (λ _, True) s)
              (λ s2, get_prop d "cancelled" s2 = VBool true) _ _ (LCancel b));
      [|exact Hc1| |exact Hem].
    + intros l s2 s3 Hl Hc2 E. pose proof (Hstep _ _ _ Hc2 E) as Hc3.
      split; [by eapply confined_trans|].
      split; [by apply (confined_keeps (λ _, True))|].
      intros ->. eapply IH; [done| |].
      * eapply (descends_confined (λ _, True)); [|done].
        eapply confined_trans; [done|]. by apply confined_notify.
      * simpl. destruct Hc2 as (-> & _). done.
    + right. unfold s1. by rewrite listeners_of_write_prop.
Qed.

(** The listeners of the receiver are called in registration order, each
    once: the calls emitted from [a] during [cancel] are its listener list. *)
Lemma cancel_fuel_direct n a s s' :
  wf_heap s → cancel_fuel n a s = Some s' →
  ∃ tr, trace s' = trace s ++ tr
        ∧ filter (λ e, e.1 = a) tr = (λ l, (a, l)) <$> listeners_of a s.
Proof.
  destruct n as [|n]; intros Hwf; simpl; [done|].
  set (s1 := write_prop a "cancelled" (VBool true) s).
  assert (confined (λ _, True) s s1) as Hc1 by by apply confined_write.
  assert (trace s = trace s1) as -> by done.
  assert (listeners_of a s = listeners_of a s1) as ->.
  { unfold s1. by rewrite listeners_of_write_prop. }
  assert (closed (λ x, a < x) s) as Hcl.
  { intros x y Hx Hy. apply Hwf in Hy. lia. }
  apply (emit_trace (confined (λ _, True) s)); [| |done].
  - intros l s2 Hc2. eapply confined_trans; [done|]. by apply confined_notify.
  - intros l s2 s3 Hl Hc2 E.
    assert (confined (λ x, a < x) s2 s3) as Hc3.
    { destruct l as [b|m]; [|injection E as <-; apply confined_refl].
      eapply cancel_fuel_confined; [| |done].
      - intros x y Hx Hy. destruct Hc2 as (_ & Ls & _). rewrite Ls in Hy. eauto.
      - unfold s1 in Hl. rewrite listeners_of_write_prop in Hl.
        by apply Hwf in Hl as [? _]. }
    split.
    + eapply confined_trans; [done|]. by eapply confined_weaken.
    + destruct Hc3 as (_ & _ & _ & _ & _ & _ & _ & _ & tr & Htr & Hall).
      exists tr. split; [done|]. eapply Forall_impl; [done|]. simpl. lia.
Qed.

Lemma cancel_direct a s s' :
  wf_heap s → cancel a s = Some s' →
  ∃ tr, trace s' = trace s ++ tr
        ∧ filter (λ e, e.1 = a) tr = (λ l, (a, l)) <$> listeners_of a s.
Proof. apply cancel_fuel_direct. Qed.

Lemma cancel_descends a s s' d :
  cancel a s = Some s' → descends s a d → d < length (ctxs s) →
  get_prop d "cancelled" s' = VBool true.
Proof. apply cancel_fuel_descends. Qed.

End Cancel_lemmas.

Lemma ctxs_set_objs f s : ctxs (set_objs f s) = ctxs s.
Proof. done. Qed.

Lemma listeners_of_set_objs a f s :
  listeners_of a (set_objs f s) = listeners_of a s.
Proof. done. Qed.

Lemma objs_write_prop a k v s : objs (write_prop a k v s) = objs s.
Proof. done. Qed.

Lemma objs_set_objs f s : objs (set_objs f s) = f (objs s).
Proof. done. Qed.

Lemma ctxs_set_timers q s : ctxs (set_timers q s) = ctxs s.
Proof. done. Qed.

Lemma ctxs_set_uid n s : ctxs (set_uid n s) = ctxs s.
Proof. done. Qed.

(** The number of contexts of a state built from the heap primitives. *)
Ltac heap_len :=
  repeat first
    [ rewrite length_on | rewrite length_write_prop | rewrite length_alloc
    | rewrite ctxs_set_objs | rewrite ctxs_set_timers | rewrite ctxs_set_uid ];
  try lia.

(** ** The constructor and the derivations *)

Section Op_lemmas.

Variable rt : runtime.

Implicit Types (s : state) (a b p : nat) (k : string) (v : value).

Lemma construct_ctx p s :
  construct rt (VCtx p) s = Ret (length (ctxs s)) (derived_state rt p s).
Proof. reflexivity. Qed.

Lemma construct_root v s :
  truthy v = false → construct rt v s = Ret (length (ctxs s)) (root_state rt s).
Proof. intros H. unfold construct. rewrite H. reflexivity. Qed.

Lemma construct_throw v s :
  truthy v = true → is_context v = false →
  construct rt v s = Throw "parent must be a Context" s.
Proof. intros H1 H2. unfold construct. rewrite H1, H2. reflexivity. Qed.

Lemma derived_length p s :
  length (ctxs (derived_state rt p s)) = S (length (ctxs s)).
Proof.
  unfold derived_state. cbv zeta.
  by heap_len.
Qed.

Lemma derived_get_old a k p s :
  a < length (ctxs s) → get_prop a k (derived_state rt p s) = get_prop a k s.
Proof.
  intros Ha. unfold derived_state. cbv zeta.
  rewrite get_prop_on.
  rewrite get_prop_write_ne by (left; lia).
  change (get_prop a k (set_objs ?f ?s)) with (get_prop a k s).
  rewrite !get_prop_write_ne by (left; lia).
  by apply get_prop_alloc.
Qed.

Lemma derived_get_new k p s :
  p < length (ctxs s) → k = "id" ∨ k = "cancelled" ∨ k = "deadline" →
  get_prop (length (ctxs s)) k (derived_state rt p s) = get_prop p k s.
Proof.
  intros Hp Hk. unfold derived_state. cbv zeta.
  rewrite get_prop_on.
  assert (∀ s' v k0 k', length (ctxs s') = S (length (ctxs s)) →
            get_prop p k' (write_prop (length (ctxs s)) k0 v s') = get_prop p k' s')
    as Hold by (intros; apply get_prop_write_ne; left; lia).
  destruct Hk as [-> | [-> | ->]].
  - rewrite get_prop_write_ne by (by right).
    change (get_prop ?a ?k (set_objs ?f ?s)) with (get_prop a k s).
    rewrite !(get_prop_write_ne _ _ _ "id") by (by right).
    rewrite get_prop_write_eq by heap_len.
    by apply get_prop_alloc.
  - rewrite get_prop_write_ne by (by right).
    change (get_prop ?a ?k (set_objs ?f ?s)) with (get_prop a k s).
    rewrite !(get_prop_write_ne _ _ _ "cancelled") by (by right).
    rewrite get_prop_write_eq by heap_len.
    rewrite Hold by heap_len.
    by apply get_prop_alloc.
  - rewrite get_prop_write_ne by (by right).
    change (get_prop ?a ?k (set_objs ?f ?s)) with (get_prop a k s).
    rewrite get_prop_write_eq by heap_len.
    rewrite !Hold by heap_len.
    by apply get_prop_alloc.
Qed.

Lemma derived_values p s :
  get_prop (length (ctxs s)) "values" (derived_state rt p s)
  = VObj (length (objs s)).
Proof.
  unfold derived_state. cbv zeta. rewrite get_prop_on.
  rewrite get_prop_write_eq; [done|]. heap_len.
Qed.

Lemma derived_objs p s :
  p < length (ctxs s) →
  ∃ m, objs (derived_state rt p s) = objs s ++ [m]
       ∧ ∀ o, get_prop p "values" s = VObj o → m = assignable (obj_at o s).
Proof.
  intros Hp. eexists. split; [reflexivity|].
  intros o Ho.
  rewrite !get_prop_write_ne by (left; lia).
  rewrite get_prop_alloc by done. rewrite Ho. simpl.
  by rewrite (right_id_L ∅ (∪)).
Qed.

Lemma derived_listeners a p s :
  p < length (ctxs s) →
  listeners_of a (derived_state rt p s)
  = if decide (a = p) then listeners_of p s ++ [LCancel (length (ctxs s))]
    else listeners_of a s.
Proof.
  intros Hp. unfold derived_state. cbv zeta.
  assert (∀ x c, listeners c = [] →
            listeners_of x (set_ctxs (λ cs, cs ++ [c]) s) = listeners_of x s)
    as Halloc.
  { intros x c Hc. destruct (decide (x < length (ctxs s))) as [Hlt|Hge].
    - by apply listeners_of_alloc.
    - rewrite (listeners_of_ge x s) by lia.
      destruct (decide (x = length (ctxs s))) as [-> | Hne].
      + by rewrite listeners_of_alloc_new.
      + apply listeners_of_ge. heap_len. }
  case_decide as Hap.
  - subst a. rewrite listeners_of_on_eq by heap_len. f_equal.
    rewrite listeners_of_write_prop, listeners_of_set_objs.
    rewrite !listeners_of_write_prop. by apply Halloc.
  - rewrite listeners_of_on_ne by done.
    rewrite listeners_of_write_prop, listeners_of_set_objs.
    rewrite !listeners_of_write_prop. by apply Halloc.
Qed.


Lemma root_length s : length (ctxs (root_state rt s)) = S (length (ctxs s)).
Proof. unfold root_state. cbv zeta. by heap_len. Qed.

Lemma root_get_old a k s :
  a < length (ctxs s) → get_prop a k (root_state rt s) = get_prop a k s.
Proof.
  intros Ha. unfold root_state. cbv zeta.
  rewrite get_prop_write_ne by (left; lia).
  change (get_prop a k (set_objs ?f ?s)) with (get_prop a k s).
  rewrite !get_prop_write_ne by (left; lia).
  change (get_prop a k (set_uid ?n ?s)) with (get_prop a k s).
  by apply get_prop_alloc.
Qed.

Lemma root_cancelled s :
  get_prop (length (ctxs s)) "cancelled" (root_state rt s) = VBool false.
Proof.
  unfold root_state. cbv zeta.
  rewrite get_prop_write_ne by (by right).
  change (get_prop ?a ?k (set_objs ?f ?s)) with (get_prop a k s).
  rewrite get_prop_write_ne by (by right).
  rewrite get_prop_write_eq; [done|]. heap_len.
Qed.


Lemma root_listeners a s :
  listeners_of a (root_state rt s) = listeners_of a s.
Proof.
  unfold root_state. cbv zeta.
  rewrite listeners_of_write_prop, listeners_of_set_objs.
  rewrite !listeners_of_write_prop.
  change (listeners_of a (set_uid ?n ?s)) with (listeners_of a s).
  destruct (decide (a < length (ctxs s))) as [Hlt|Hge].
  - by apply listeners_of_alloc.
  - rewrite (listeners_of_ge a s) by lia.
    destruct (decide (a = length (ctxs s))) as [-> | Hne].
    + by rewrite listeners_of_alloc_new.
    + apply listeners_of_ge. heap_len.
Qed.

Lemma assign_other this k v s :
  k ≠ "__proto__" → assign this k v s = Ret tt (write_prop this k v s).
Proof.
  intros H. unfold assign. by destruct (String.eqb_spec k "__proto__").
Qed.

Lemma set_assigns this k v s :
  k ≠ "__proto__" → k ≠ "id" ∨ isString v = true →
  set this k v s = Ret this (write_prop this k v s).
Proof.
  intros Hp H. unfold set.
  assert (String.eqb k "id" && negb (isString v) = false) as ->.
  { destruct (String.eqb_spec k "id") as [-> | Hk]; simpl; [|done].
    destruct H as [H|H]; [done|]. by rewrite H. }
  unfold mbind, M_bind, bind. rewrite assign_other by done. reflexivity.
Qed.

(** Under [__proto__] nothing is stored when the value is not an object, and
    the prototype is replaced otherwise. *)
Lemma set_proto this v s :
  set this "__proto__" v s = if unboxed v then Ret this s else Beyond s.
Proof.
  unfold set, assign, mbind, M_bind, bind. cbn [String.eqb Ascii.eqb Bool.eqb andb].
  by destruct (unboxed v).
Qed.

Lemma set_throws this v s :
  isString v = false → set this "id" v s = Throw "id must be a String" s.
Proof. intros H. unfold set. simpl. by rewrite H. Qed.

(** [withDeadline] with a Date never throws. *)
Lemma withDeadline_date this t s :
  this < length (ctxs s) →
  withDeadline rt this (VDate t) s
  = Ret (length (ctxs s)) (deadline_state rt this t s).
Proof.
  intros Hthis. unfold withDeadline, deadline_state. cbn [is_date negb].
  unfold mbind, M_bind, bind. rewrite construct_ctx.
  unfold gets at 1.
  rewrite (derived_get_new "deadline") by auto.
  fold (adopts rt (VDate t) (get_prop this "deadline" s)).
  destruct (adopts rt (VDate t) (get_prop this "deadline" s)); [|done].
  rewrite set_assigns by (done || by left).
  unfold mbind, M_bind, bind, modify, gets, setTimeout.
  rewrite get_prop_write_eq by (rewrite derived_length; lia).
  reflexivity.
Qed.

Lemma withDeadline_throw this v s :
  is_date v = false →
  withDeadline rt this v s = Throw "deadline must be a Date" s.
Proof. intros H. unfold withDeadline. by rewrite H. Qed.

Lemma withTimeout_int this z s :
  withTimeout rt this (VNum (NInt z)) s
  = withDeadline rt this (new_Date (now s + z)) s.
Proof. reflexivity. Qed.

Lemma withTimeout_throw this v s :
  is_integer v = false →
  withTimeout rt this v s = Throw "ms must be an Integer" s.
Proof. intros H. unfold withTimeout. by rewrite H. Qed.

Lemma withValues_object this v s :
  is_object v = true →
  withValues rt this v s = Ret (length (ctxs s)) (values_state rt this v s).
Proof. intros H. unfold withValues. rewrite H. reflexivity. Qed.

Lemma withValues_throw this v s :
  is_object v = false →
  withValues rt this v s = Throw "values must be an Object" s.
Proof. intros H. unfold withValues. by rewrite H. Qed.


Lemma derived_derives p s :
  p < length (ctxs s) → derives p s (derived_state rt p s).
Proof.
  intros Hp. split_and!; try done.
  - apply derived_length.
  - intros a k Ha. by apply derived_get_old.
  - intros k Hk. apply derived_get_new; [done|]. destruct Hk; auto.
  - intros a. by apply derived_listeners.
  - destruct (derived_objs p s Hp) as (m & Hm & _).
    exists [m]. split; [done|]. exists (length (objs s)).
    split; [apply derived_values|]. rewrite Hm, length_app. simpl. lia.
  - by left.
Qed.

Lemma deadline_derives p t s :
  p < length (ctxs s) → derives p s (deadline_state rt p t s).
Proof.
  intros Hp. pose proof (derived_derives p s Hp)
    as (L & Old & New & Ls & (os & Hos & o & Ho & Hlen) & N & U & Tr & _).
  unfold deadline_state. cbv zeta.
  destruct (adopts rt (VDate t) (get_prop p "deadline" s));
    [|by apply derived_derives].
  split_and!; try done.
  - heap_len.
  - intros a k Ha. change (get_prop a k (set_timers ?q ?s)) with (get_prop a k s).
    rewrite get_prop_write_ne by (left; lia). by apply Old.
  - intros k Hk. change (get_prop ?a k (set_timers ?q ?s)) with (get_prop a k s).
    rewrite get_prop_write_ne by (right; destruct Hk; by subst). by apply New.
  - intros a.
    change (listeners_of a (set_timers ?q ?s)) with (listeners_of a s).
    rewrite listeners_of_write_prop. apply Ls.
  - exists os. split; [done|]. exists o. split; [|done].
    change (get_prop ?a ?k (set_timers ?q ?s)) with (get_prop a k s).
    rewrite get_prop_write_ne by (by right). done.
  - right. exists (deadline_timer rt p t s). by split.
Qed.

Lemma values_derives p v s :
  p < length (ctxs s) → derives p s (values_state rt p v s).
Proof.
  intros Hp. pose proof (derived_derives p s Hp)
    as (L & Old & New & Ls & (os & Hos & o & Ho & Hlen) & N & U & Tr & T).
  unfold values_state. cbv zeta.
  split_and!; try done.
  - heap_len.
  - intros a k Ha. rewrite get_prop_write_ne by (left; lia). by apply Old.
  - intros k Hk. rewrite get_prop_write_ne by (right; destruct Hk; by subst).
    by apply New.
  - intros a. rewrite listeners_of_write_prop. apply Ls.
  - exists (os ++ [assignable (own_props rt v (derived_state rt p s))
                   ∪ (assignable
                        (own_props rt (get_prop (length (ctxs s)) "values"
                                         (derived_state rt p s))
                           (derived_state rt p s)) ∪ ∅)]).
    rewrite objs_write_prop, objs_set_objs, Hos, <- app_assoc.
    split; [done|]. eexists. split.
    + apply get_prop_write_eq. heap_len.
    + rewrite !length_app. simpl. lia.
Qed.

(** Every derivation from a live context returns the context it created, or
    throws on its argument and changes nothing. *)
Lemma derive_derives d p s c s' :
  p < length (ctxs s) → derive rt d p s = Ret c s' →
  c = length (ctxs s) ∧ derives p s s'.
Proof.
  intros Hp. destruct d as [|v|v|v]; simpl.
  - rewrite construct_ctx. intros [= <- <-]. split; [done|].
    by apply derived_derives.
  - destruct v; try (by rewrite withDeadline_throw).
    rewrite withDeadline_date by done. intros [= <- <-]. split; [done|].
    by apply deadline_derives.
  - destruct (is_integer v) eqn:E; [|by rewrite withTimeout_throw].
    destruct v as [| | |[z| |]| | | |]; try done.
    rewrite withTimeout_int. unfold new_Date.
    rewrite withDeadline_date by done. intros [= <- <-]. split; [done|].
    by apply deadline_derives.
  - destruct (is_object v) eqn:E; [|by rewrite withValues_throw].
    rewrite withValues_object by done. intros [= <- <-]. split; [done|].
    by apply values_derives.
Qed.

(** The operations either return or throw on their guard, before anything
    is mutated. *)
Lemma withDeadline_returns this t s :
  ∃ s', withDeadline rt this (VDate t) s = Ret (length (ctxs s)) s'.
Proof.
  unfold withDeadline. cbn [is_date negb].
  unfold mbind, M_bind, bind. rewrite construct_ctx.
  unfold gets at 1.
  destruct (negb (truthy _) || js_lt rt _ _); [|by eexists].
  rewrite set_assigns by (done || by left).
  unfold mbind, M_bind, bind, modify, gets, setTimeout.
  rewrite get_prop_write_eq by (rewrite derived_length; lia).
  by eexists.
Qed.

Lemma construct_throws v s msg s' :
  construct rt v s = Throw msg s' →
  s' = s ∧ truthy v = true ∧ is_context v = false.
Proof.
  destruct (truthy v) eqn:Ht.
  - destruct (is_context v) eqn:Hc.
    + by destruct v.
    + rewrite construct_throw by done. by intros [= _ <-].
  - by rewrite construct_root.
Qed.

Lemma set_throw this k v s msg s' :
  set this k v s = Throw msg s' → s' = s ∧ k = "id" ∧ isString v = false.
Proof.
  destruct (decide (k = "id")) as [-> | Hk].
  - destruct (isString v) eqn:E.
    + by rewrite set_assigns by (done || by right).
    + rewrite set_throws by done. by intros [= _ <-].
  - destruct (decide (k = "__proto__")) as [-> | Hp].
    + rewrite set_proto. by destruct (unboxed v).
    + by rewrite set_assigns by (done || by left).
Qed.

Lemma withDeadline_throws this v s msg s' :
  withDeadline rt this v s = Throw msg s' → s' = s ∧ is_date v = false.
Proof.
  destruct (is_date v) eqn:E.
  - destruct v; try done.
    destruct (withDeadline_returns this t s) as [s1 ->]. done.
  - rewrite withDeadline_throw by done. by intros [= _ <-].
Qed.

Lemma withTimeout_throws this v s msg s' :
  withTimeout rt this v s = Throw msg s' → s' = s ∧ is_integer v = false.
Proof.
  destruct (is_integer v) eqn:E.
  - destruct v as [| | |[z| |]| | | |]; try done.
    rewrite withTimeout_int. unfold new_Date.
    destruct (withDeadline_returns this (time_clip (now s + z)) s) as [s1 ->].
    done.
  - rewrite withTimeout_throw by done. by intros [= _ <-].
Qed.

Lemma withValues_throws this v s msg s' :
  withValues rt this v s = Throw msg s' → s' = s ∧ is_object v = false.
Proof.
  destruct (is_object v) eqn:E.
  - by rewrite withValues_object.
  - rewrite withValues_throw by done. by intros [= _ <-].
Qed.

(** The constructor and the derivations stay within the heaps a state
    stands for; [set] leaves them only where it replaces a prototype. *)
Lemma construct_settles v s s' : construct rt v s ≠ Beyond s'.
Proof.
  destruct (truthy v) eqn:Ht; [|by rewrite construct_root].
  destruct (is_context v) eqn:Hc; [|by rewrite construct_throw].
  by destruct v.
Qed.

Lemma derive_settles d p s s' : derive rt d p s ≠ Beyond s'.
Proof.
  destruct d as [|v|v|v]; simpl.
  - apply construct_settles.
  - destruct (is_date v) eqn:E; [|by rewrite withDeadline_throw].
    destruct v; try done. by destruct (withDeadline_returns p t s) as [s1 ->].
  - destruct (is_integer v) eqn:E; [|by rewrite withTimeout_throw].
    destruct v as [| | |[z| |]| | | |]; try done.
    rewrite withTimeout_int. unfold new_Date.
    by destruct (withDeadline_returns p (time_clip (now s + z)) s) as [s1 ->].
  - destruct (is_object v) eqn:E; [|by rewrite withValues_throw].
    by rewrite withValues_object.
Qed.

Lemma derived_copy p s o :
  p < length (ctxs s) → get_prop p "values" s = VObj o →
  objs (derived_state rt p s) = objs s ++ [assignable (obj_at o s)].
Proof.
  intros Hp Ho. destruct (derived_objs p s Hp) as (m & -> & Hm).
  by rewrite (Hm o Ho).
Qed.

(** The values of the context a derivation returns: a new object with the
    entries the derivation supplies over those of the receiver's values,
    but for the key [__proto__]. *)
Lemma derive_values d p s c s' o :
  p < length (ctxs s) → get_prop p "values" s = VObj o →
  o < length (objs s) → plain_arg s d →
  derive rt d p s = Ret c s' →
  ∃ o', get_prop c "values" s' = VObj o'
        ∧ length (objs s) ≤ o' < length (objs s')
        ∧ obj_at o' s' = assignable (supplied d s ∪ obj_at o s)
        ∧ ∀ l, l < length (objs s) → obj_at l s' = obj_at l s.
Proof.
  intros Hp Ho Hlo Hpl Hd.
  assert (objs (derived_state rt p s) = objs s ++ [assignable (obj_at o s)])
    as Hos1 by by apply derived_copy.
  assert (∀ t, objs (deadline_state rt p t s) = objs (derived_state rt p s)
            ∧ get_prop (length (ctxs s)) "values" (deadline_state rt p t s)
              = get_prop (length (ctxs s)) "values" (derived_state rt p s))
    as Hdl.
  { intros t. unfold deadline_state. cbv zeta.
    destruct (adopts _ _ _); [|done]. split; [done|].
    change (get_prop ?a ?k (set_timers ?q ?s)) with (get_prop a k s).
    apply get_prop_write_ne. by right. }
  assert (∀ st, objs st = objs s ++ [assignable (obj_at o s)] →
            get_prop (length (ctxs s)) "values" st = VObj (length (objs s)) →
            ∃ o', get_prop (length (ctxs s)) "values" st = VObj o'
                  ∧ length (objs s) ≤ o' < length (objs st)
                  ∧ obj_at o' st = assignable (∅ ∪ obj_at o s)
                  ∧ ∀ l, l < length (objs s) → obj_at l st = obj_at l s)
    as Hplain.
  { intros st Hos Hv. exists (length (objs s)).
    rewrite Hos, length_app. simpl. split_and!; [done|lia|lia| |].
    - unfold obj_at. rewrite Hos, list_lookup_middle by done.
      by rewrite (left_id_L ∅ (∪)).
    - intros l Hl. unfold obj_at. by rewrite Hos, lookup_app_l. }
  destruct d as [|w|w|w]; simpl in Hd.
  - rewrite construct_ctx in Hd. injection Hd as <- <-.
    apply Hplain; [done|apply derived_values].
  - destruct w; try (by rewrite withDeadline_throw in Hd).
    rewrite withDeadline_date in Hd by done. injection Hd as <- <-.
    destruct (Hdl t) as [Hobjs Hvals].
    apply Hplain; [by rewrite Hobjs|by rewrite Hvals, derived_values].
  - destruct (is_integer w) eqn:E; [|by rewrite withTimeout_throw in Hd].
    destruct w as [| | |[z| |]| | | |]; try done.
    rewrite withTimeout_int in Hd. unfold new_Date in Hd.
    rewrite withDeadline_date in Hd by done. injection Hd as <- <-.
    destruct (Hdl (time_clip (now s + z))) as [Hobjs Hvals].
    apply Hplain; [by rewrite Hobjs|by rewrite Hvals, derived_values].
  - destruct (is_object w) eqn:E; [|by rewrite withValues_throw in Hd].
    rewrite withValues_object in Hd by done. injection Hd as <- <-.
    set (s1 := derived_state rt p s) in *.
    assert (get_prop (length (ctxs s)) "values" s1 = VObj (length (objs s)))
      as Hv1 by apply derived_values.
    assert (length (ctxs s1) = S (length (ctxs s))) as L1
      by apply derived_length.
    assert (obj_at (length (objs s)) s1 = assignable (obj_at o s)) as Hc1.
    { unfold obj_at. by rewrite Hos1, list_lookup_middle. }
    assert (length (objs s1) = S (length (objs s))) as Lo1.
    { rewrite Hos1, length_app. simpl. lia. }
    assert (own_props rt w s1 = supplied (DValues w) s) as Hown.
    { destruct w; try done. simpl in Hpl |- *.
      unfold obj_at. by rewrite Hos1, lookup_app_l. }
    unfold values_state. cbv zeta. fold s1.
    rewrite Hown, Hv1.
    change (own_props rt (VObj ?l) ?st) with (obj_at l st). rewrite Hc1.
    rewrite (right_id_L ∅ (∪)), assignable_idemp, <- assignable_union.
    set (st := write_prop _ _ _ _).
    assert (objs st = objs s ++ [assignable (obj_at o s);
                                 assignable (supplied (DValues w) s ∪ obj_at o s)])
      as Hobjs.
    { unfold st. rewrite objs_write_prop, objs_set_objs, Hos1.
      by rewrite <- app_assoc. }
    exists (length (objs s1)). split; [|split; [split|split]].
    + apply get_prop_write_eq. heap_len.
    + lia.
    + rewrite Lo1, Hobjs, length_app. cbn [length]. lia.
    + unfold obj_at. rewrite Hobjs, Lo1, lookup_app_r by lia.
      by replace (S (length (objs s)) - length (objs s)) with 1 by lia.
    + intros l Hl. unfold obj_at. by rewrite Hobjs, lookup_app_l.
Qed.

Lemma set_beyond this k v s s' :
  set this k v s = Beyond s' → s' = s ∧ k = "__proto__" ∧ unboxed v = false.
Proof.
  destruct (decide (k = "__proto__")) as [-> | Hp].
  - rewrite set_proto. destruct (unboxed v); [done|]. by intros [= <-].
  - destruct (decide (k = "id")) as [-> | Hk].
    + destruct (isString v) eqn:E.
      * by rewrite set_assigns by (done || by right).
      * by rewrite set_throws.
    + by rewrite set_assigns by (done || by left).
Qed.

(** A call of [set] a program makes: it is under no reserved name, and it
    assigns the own property or leaves the state as it is (it threw, or
    the key is [__proto__] and the value no object). *)
Lemma exec_set this k v s s' :
  exec rt (OSet this k v) s = Some s' →
  this < length (ctxs s) ∧ reserved k = false
  ∧ (s' = s
     ∨ k ≠ "__proto__" ∧ (k ≠ "id" ∨ isString v = true)
       ∧ s' = write_prop this k v s).
Proof.
  simpl. case_bool_decide as Ha; [|done]. simpl.
  destruct (reserved k) eqn:Hr; [done|]. simpl.
  intros H. split_and!; [done..|].
  destruct (decide (k = "__proto__")) as [-> | Hp].
  - rewrite set_proto in H. destruct (unboxed v); [|done].
    injection H as <-. by left.
  - destruct (decide (k = "id")) as [-> | Hk].
    + destruct (isString v) eqn:E.
      * rewrite set_assigns in H by (done || by right).
        injection H as <-. right. split_and!; auto.
      * rewrite set_throws in H by done. injection H as <-. by left.
    + rewrite set_assigns in H by (done || by left).
      injection H as <-. right. split_and!; auto.
Qed.

Lemma exec_alloc m s s' :
  exec rt (OAlloc m) s = Some s' →
  proto_entry m = false ∧ s' = set_objs (λ os, os ++ [m]) s.
Proof. simpl. destruct (proto_entry m); [done|]. by intros [= <-]. Qed.

Lemma exec_write l k v s s' :
  exec rt (OWrite l k v) s = Some s' →
  l < length (objs s) ∧ (k ≠ "__proto__" ∨ unboxed v = true)
  ∧ s' = obj_write l k v s.
Proof.
  simpl. case_bool_decide as Hl; [|done]. simpl.
  destruct (String.eqb_spec k "__proto__") as [-> | Hk]; simpl.
  - destruct (unboxed v); [|done]. intros [= <-]. auto.
  - intros [= <-]. auto.
Qed.

End Op_lemmas.

(** ** Timers *)

Section Timer_lemmas.

Implicit Types (s : state) (a b : nat) (q : list timer) (t u : timer)
  (P : nat → Prop).

Lemma enqueue_split t q :
  ∃ q1 q2, q = q1 ++ q2 ∧ enqueue t q = q1 ++ t :: q2
           ∧ Forall (λ u, (t_due u ≤ t_due t)%Z) q1.
Proof.
  induction q as [|u q (q1 & q2 & -> & IH & Hall)]; simpl.
  - by exists [], [].
  - destruct (Z.ltb_spec (t_due t) (t_due u)) as [Hlt|Hge].
    + by exists [], (u :: q1 ++ q2).
    + exists (u :: q1), q2. rewrite IH. split_and!; [done..|].
      by constructor.
Qed.

Lemma Forall_enqueue (Q : timer → Prop) t q :
  Q t → Forall Q q → Forall Q (enqueue t q).
Proof.
  intros Ht Hq. destruct (enqueue_split t q) as (q1 & q2 & -> & -> & _).
  apply Forall_app in Hq as [H1 H2]. apply Forall_app. split; [done|].
  by constructor.
Qed.

Lemma confined_drifts P s s' : confined P s s' → drifts P s s'.
Proof.
  intros (L & Ls & F & C & O & T & N & U & Tr). by split_and!.
Qed.

Lemma drifts_refl P s : drifts P s s.
Proof. apply confined_drifts, confined_refl. Qed.

Lemma drifts_trans P s1 s2 s3 :
  drifts P s1 s2 → drifts P s2 s3 → drifts P s1 s3.
Proof.
  intros H1 H2.
  apply (confined_trans P _ (set_now (now s3) (set_timers (timers s3) s2)));
    [|done].
  destruct H1 as (L & Ls & F & C & O & T & N & U & Tr). by split_and!.
Qed.

Lemma drifts_set P q n s : drifts P s (set_now n (set_timers q s)).
Proof. apply confined_refl. Qed.

Lemma wf_heap_drifts P s s' : drifts P s s' → wf_heap s → wf_heap s'.
Proof. intros H Hwf. eapply wf_heap_confined; [done|]. exact Hwf. Qed.

Lemma closed_drifts P s s' : drifts P s s' → closed P s → closed P s'.
Proof. intros H Hcl. eapply closed_confined; [done|]. exact Hcl. Qed.



(** The timers that fire are those of the queue that are due; what is left
    of the queue is a suffix of it. *)
Lemma run_timers_drifts P target : ∀ q s s',
  closed P s →
  Forall (λ t, (t_due t ≤ target)%Z → P (t_target t)) q →
  run_timers target q s = Some s' →
  drifts P s s' ∧ ∃ q1, q = q1 ++ timers s'.
Proof.
  induction q as [|t q IH]; intros s s' Hcl Hq; simpl.
  - intros [= <-]. split; [apply confined_refl|]. by exists [].
  - apply Forall_cons in Hq as [Ht Hq].
    destruct (Z.leb_spec (t_due t) target) as [Hdue|Hlate].
    + destruct (cancel _ _) as [s1|] eqn:E; simpl; [|done].
      intros Hrun.
      assert (drifts P s s1) as H1.
      { eapply drifts_trans; [apply drifts_set|].
        apply confined_drifts. eapply cancel_confined; [|by apply Ht|done].
        done. }
      destruct (IH s1 s') as (H2 & q1 & ->); [by eapply closed_drifts|done..|].
      split; [by eapply drifts_trans|]. by exists (t :: q1).
    + intros [= <-]. split; [apply confined_refl|]. by exists [].
Qed.

Lemma run_timers_total target : ∀ q s,
  wf_heap s → ∃ s', run_timers target q s = Some s'.
Proof.
  induction q as [|t q IH]; intros s Hwf; simpl; [by eexists|].
  destruct (t_due t <=? target)%Z; [|by eexists].
  destruct (cancel_total (t_target t)
              (set_now (Z.max (now s) (t_due t)) (set_timers q s)))
    as [s1 Hs1]; [done|].
  rewrite Hs1. simpl. apply IH.
  apply (wf_heap_drifts (λ _, True) s); [|done].
  eapply drifts_trans; [apply drifts_set|].
  apply confined_drifts. by eapply cancel_confined.
Qed.


Lemma tick_total d s : wf_heap s → ∃ s', tick d s = Some s'.
Proof.
  intros Hwf. unfold tick.
  destruct (run_timers_total (now s + d) (timers s) s Hwf) as [s1 ->].
  by eexists.
Qed.

Lemma tick_drifts P d s s' :
  closed P s →
  Forall (λ t, (t_due t ≤ now s + d)%Z → P (t_target t)) (timers s) →
  tick d s = Some s' →
  drifts P s s' ∧ now s' = (now s + d)%Z ∧ ∃ q1, timers s = q1 ++ timers s'.
Proof.
  intros Hcl Hq. unfold tick.
  destruct (run_timers _ _ _) as [s1|] eqn:E; simpl; [|done].
  intros [= <-].
  destruct (run_timers_drifts P _ _ _ _ Hcl Hq E) as (H1 & q1 & Hq1).
  split_and!; [|done|by exists q1].
  eapply drifts_trans; [done|]. apply (drifts_set P (timers s1) (now s + d)%Z s1).
Qed.

End Timer_lemmas.

(** ** Programs *)

Section Program_lemmas.

Variable rt : runtime.

Implicit Types (s : state) (a b p : nat) (k : string) (v : value) (o : op).

Lemma wf_derives p s s' :
  wf s → p < length (ctxs s) → derives p s s' → wf s'.
Proof.
  intros [Hh Ht] Hp (L & _ & _ & Ls & _ & _ & _ & _ & T). split.
  - intros a b. rewrite Ls, L. case_decide as Ha.
    + subst a. intros [Hb|Hb]%elem_of_app.
      * apply Hh in Hb. lia.
      * apply list_elem_of_singleton in Hb as [= ->]. lia.
    + intros Hb. apply Hh in Hb. lia.
  - rewrite L. destruct T as [-> | (t & Htp & ->)].
    + eapply Forall_impl; [done|]. simpl. lia.
    + apply Forall_enqueue; [lia|].
      eapply Forall_impl; [done|]. simpl. lia.
Qed.

Lemma wf_root s : wf s → wf (root_state rt s).
Proof.
  intros [Hh Ht]. split.
  - intros a b. rewrite root_listeners, root_length. intros Hb.
    apply Hh in Hb. lia.
  - rewrite root_length. eapply Forall_impl; [exact Ht|]. simpl. lia.
Qed.

Lemma wf_write_prop a k v s : wf s → wf (write_prop a k v s).
Proof.
  intros [Hh Ht]. split.
  - intros x y. rewrite listeners_of_write_prop, length_write_prop. apply Hh.
  - rewrite length_write_prop. exact Ht.
Qed.

Lemma wf_on_spy a n s : wf s → wf (on a (LSpy n) s).
Proof.
  intros [Hh Ht]. split.
  - intros x y. rewrite length_on.
    destruct (decide (x = a)) as [-> | Hne].
    + destruct (decide (a < length (ctxs s))) as [Hlt|Hge].
      * rewrite listeners_of_on_eq by done.
        intros [Hb|Hb]%elem_of_app; [by apply Hh|].
        by apply list_elem_of_singleton in Hb.
      * rewrite listeners_of_ge by (rewrite length_on; lia).
        by intros ?%elem_of_nil.
    + rewrite listeners_of_on_ne by done. apply Hh.
  - rewrite length_on. exact Ht.
Qed.

Lemma wf_drifts P s s' q1 :
  drifts P s s' → timers s = q1 ++ timers s' → wf s → wf s'.
Proof.
  intros Hd Hq [Hh Ht]. split; [by eapply wf_heap_drifts|].
  destruct Hd as (-> & _). rewrite Hq in Ht.
  by apply Forall_app in Ht as [_ ?].
Qed.

Lemma wf_tick d s s' : wf s → tick d s = Some s' → wf s'.
Proof.
  intros Hwf H.
  destruct (tick_drifts (λ _, True) d s s') as (Hd & _ & q1 & Hq);
    [done|by apply Forall_forall|done|].
  by eapply wf_drifts.
Qed.

(** The state invariant holds at the start and is kept by every call. *)
Lemma wf_init t : wf (init t).
Proof. split; [|by constructor]. intros a b Hb. by apply elem_of_nil in Hb. Qed.

Lemma exec_wf o s s' : wf s → exec rt o s = Some s' → wf s'.
Proof.
  intros Hwf. destruct o as [v|a k v|a v|a v|a v|a|a n|d|m|l k v]; simpl.
  - destruct (live v s) eqn:Hl; [|done]. intros [= <-].
    destruct (truthy v) eqn:Ht; [|by rewrite construct_root; [apply wf_root|]].
    destruct (is_context v) eqn:Hc; [|by rewrite construct_throw].
    destruct v; try done. simpl in Hl. apply bool_decide_eq_true in Hl.
    rewrite construct_ctx. simpl.
    eapply wf_derives; [done..|]. by apply derived_derives.
  - change (exec rt (OSet a k v) s = Some s' → wf s').
    intros (_ & _ & [-> | (_ & _ & ->)])%exec_set; [done|].
    by apply wf_write_prop.
  - case_bool_decide as Ha; [|done]. intros [= <-].
    destruct (withDeadline rt a v s) as [x s1|msg s1|s1] eqn:E; simpl.
    + eapply wf_derives; [done..|].
      by eapply (derive_derives rt (DDeadline v)).
    + by apply withDeadline_throws in E as [-> _].
    + by destruct (derive_settles rt (DDeadline v) a s s1).
  - case_bool_decide as Ha; [|done]. intros [= <-].
    destruct (withTimeout rt a v s) as [x s1|msg s1|s1] eqn:E; simpl.
    + eapply wf_derives; [done..|].
      by eapply (derive_derives rt (DTimeout v)).
    + by apply withTimeout_throws in E as [-> _].
    + by destruct (derive_settles rt (DTimeout v) a s s1).
  - case_bool_decide as Ha; [|done]. destruct (live v s); [|done]. simpl.
    intros [= <-].
    destruct (withValues rt a v s) as [x s1|msg s1|s1] eqn:E; simpl.
    + eapply wf_derives; [done..|].
      by eapply (derive_derives rt (DValues v)).
    + by apply withValues_throws in E as [-> _].
    + by destruct (derive_settles rt (DValues v) a s s1).
  - case_bool_decide as Ha; [|done]. intros H.
    eapply wf_confined; [|done]. by eapply (cancel_confined (λ _, True)).
  - case_bool_decide as Ha; [|done]. intros [= <-]. by apply wf_on_spy.
  - destruct (0 <=? d)%Z; [|done]. by apply wf_tick.
  - change (exec rt (OAlloc m) s = Some s' → wf s').
    by intros [_ ->]%exec_alloc.
  - change (exec rt (OWrite l k v) s = Some s' → wf s').
    intros (_ & _ & ->)%exec_write. unfold obj_write.
    by destruct (String.eqb k "__proto__").
Qed.

(** Every call a program makes is one of the steps. *)
Lemma exec_step o s s' : exec rt o s = Some s' → step rt o s s'.
Proof.
  destruct o as [v|a k v|a v|a v|a v|a|a n|d|m|l k v].
  - simpl. destruct (live v s) eqn:Hl; [|done]. intros [= <-].
    destruct (truthy v) eqn:Ht.
    + destruct (is_context v) eqn:Hc;
        [|rewrite construct_throw by done; constructor].
      destruct v; try done. simpl in Hl. apply bool_decide_eq_true in Hl.
      by eapply (step_derive rt _ DNew).
    + rewrite construct_root by done. eapply step_root; [done|].
      by apply construct_root.
  - intros (Ha & Hr & [-> | (Hp & Hk & ->)])%exec_set; by constructor.
  - simpl. case_bool_decide as Ha; [|done]. intros [= <-].
    destruct (withDeadline rt a v s) as [x s1|msg s1|s1] eqn:E; simpl.
    + by eapply (step_derive rt _ (DDeadline v)).
    + apply withDeadline_throws in E as [-> _]. constructor.
    + by destruct (derive_settles rt (DDeadline v) a s s1).
  - simpl. case_bool_decide as Ha; [|done]. intros [= <-].
    destruct (withTimeout rt a v s) as [x s1|msg s1|s1] eqn:E; simpl.
    + by eapply (step_derive rt _ (DTimeout v)).
    + apply withTimeout_throws in E as [-> _]. constructor.
    + by destruct (derive_settles rt (DTimeout v) a s s1).
  - simpl. case_bool_decide as Ha; [|done]. destruct (live v s); [|done].
    simpl. intros [= <-].
    destruct (withValues rt a v s) as [x s1|msg s1|s1] eqn:E; simpl.
    + by eapply (step_derive rt _ (DValues v)).
    + apply withValues_throws in E as [-> _]. constructor.
    + by destruct (derive_settles rt (DValues v) a s s1).
  - simpl. case_bool_decide as Ha; [|done]. intros H. by constructor.
  - simpl. case_bool_decide as Ha; [|done]. intros [= <-]. by constructor.
  - simpl. destruct (Z.leb_spec 0 d) as [Hd|]; [|done]. intros H.
    by constructor.
  - intros [Hm ->]%exec_alloc. by constructor.
  - intros (Hl & Hk & ->)%exec_write.
    destruct (decide (k = "__proto__")) as [-> | Hne].
    + rewrite obj_write_proto. constructor.
    + rewrite obj_write_other by done. by constructor.
Qed.

(** No call of the class and no call a program makes gives a context an
    own property under a reserved name. *)
Lemma pristine_set_timers q s : pristine s → pristine (set_timers q s).
Proof. by apply pristine_same. Qed.

Lemma pristine_set_now n s : pristine s → pristine (set_now n s).
Proof. by apply pristine_same. Qed.

Lemma pristine_set_uid n s : pristine s → pristine (set_uid n s).
Proof. by apply pristine_same. Qed.

Lemma pristine_notify a l s : pristine s → pristine (notify a l s).
Proof. by apply pristine_same. Qed.

Lemma pristine_init t : pristine (init t).
Proof. split; [|done]. intros a k _. by apply own_prop_ge; simpl; lia. Qed.

(** An object [Object.assign] has filled has no own property
    [__proto__]. *)
Lemma pristine_assigned (m1 m2 : gmap string value) s :
  pristine s →
  pristine (set_objs (λ os, os ++ [assignable m1 ∪ (assignable m2 ∪ ∅)]) s).
Proof.
  apply pristine_new_obj, proto_entry_none.
  rewrite !lookup_union, !assignable_proto. done.
Qed.

Lemma emit_keeps (I : state → Prop) invoke a ls :
  (∀ l s1, I s1 → I (notify a l s1)) →
  (∀ l s1 s2, l ∈ ls → I s1 → invoke l s1 = Some s2 → I s2) →
  ∀ s s', I s → emit invoke a ls s = Some s' → I s'.
Proof.
  intros Hn. induction ls as [|l ls IH]; intros Hinv s s' Hs; simpl.
  - by intros [= <-].
  - destruct (invoke l (notify a l s)) as [s1|] eqn:E; simpl; [|done].
    apply IH.
    + intros l' s2 s3 Hl'. apply Hinv. by right.
    + eapply Hinv; [by left| |exact E]. by apply Hn.
Qed.

Lemma cancel_fuel_pristine n : ∀ a s s',
  pristine s → cancel_fuel n a s = Some s' → pristine s'.
Proof.
  induction n as [|n IH]; intros a s s' Hp; [done|].
  rewrite cancel_fuel_S. apply (emit_keeps pristine).
  - intros l s1. apply pristine_notify.
  - intros [b|m] s1 s2 _ Hs1 E; [by eapply IH|]. by injection E as <-.
  - by apply pristine_write.
Qed.

Lemma cancel_pristine a s s' :
  pristine s → cancel a s = Some s' → pristine s'.
Proof. apply cancel_fuel_pristine. Qed.

Lemma run_timers_pristine target q : ∀ s s',
  pristine s → run_timers target q s = Some s' → pristine s'.
Proof.
  induction q as [|t q IH]; intros s s' Hp; simpl.
  - intros [= <-]. by apply pristine_set_timers.
  - destruct (t_due t <=? target)%Z.
    + destruct (cancel _ _) as [s1|] eqn:E; simpl; [|done].
      apply IH. eapply cancel_pristine; [|exact E].
      by apply pristine_set_now, pristine_set_timers.
    + intros [= <-]. by apply pristine_set_timers.
Qed.

Lemma tick_pristine d s s' : pristine s → tick d s = Some s' → pristine s'.
Proof.
  intros Hp. unfold tick.
  destruct (run_timers _ _ _) as [s1|] eqn:E; simpl; [|done].
  intros [= <-]. apply pristine_set_now. by eapply run_timers_pristine.
Qed.

Lemma derived_pristine p s : pristine s → pristine (derived_state rt p s).
Proof.
  intros Hp. unfold derived_state. cbv zeta.
  apply pristine_on, pristine_write; [done|].
  apply pristine_new_obj.
  { apply proto_entry_none. by rewrite lookup_union, assignable_proto. }
  do 3 (apply pristine_write; [done|]). by apply pristine_alloc.
Qed.

Lemma root_pristine s : pristine s → pristine (root_state rt s).
Proof.
  intros Hp. unfold root_state. cbv zeta.
  apply pristine_write; [done|]. apply pristine_new_obj; [done|].
  do 3 (apply pristine_write; [done|]). apply pristine_set_uid.
  by apply pristine_alloc.
Qed.

Lemma derive_pristine d p s c s' :
  p < length (ctxs s) → pristine s → derive rt d p s = Ret c s' → pristine s'.
Proof.
  intros Hlt Hp. destruct d as [|v|v|v]; simpl.
  - rewrite construct_ctx. intros [= <- <-]. by apply derived_pristine.
  - destruct v; try (by rewrite withDeadline_throw).
    rewrite withDeadline_date by done. intros [= <- <-].
    unfold deadline_state. cbv zeta.
    destruct (adopts _ _ _); [|by apply derived_pristine].
    apply pristine_set_timers, pristine_write; [done|].
    by apply derived_pristine.
  - destruct (is_integer v) eqn:E; [|by rewrite withTimeout_throw].
    destruct v as [| | |[z| |]| | | |]; try done.
    rewrite withTimeout_int. unfold new_Date.
    rewrite withDeadline_date by done. intros [= <- <-].
    unfold deadline_state. cbv zeta.
    destruct (adopts _ _ _); [|by apply derived_pristine].
    apply pristine_set_timers, pristine_write; [done|].
    by apply derived_pristine.
  - destruct (is_object v) eqn:E; [|by rewrite withValues_throw].
    rewrite withValues_object by done. intros [= <- <-].
    unfold values_state. cbv zeta.
    apply pristine_write; [done|]. apply pristine_assigned.
    by apply derived_pristine.
Qed.

Lemma step_pristine o s s' : step rt o s s' → pristine s → pristine s'.
Proof.
  intros H Hp.
  destruct H as [o s|v s c s' Hv Hc|o d p s c s' _ Hlt Hd|this k v s _ Hr _ _
                |this s s' _ Hc|this n s _|d s s' _ Ht|m s Hm|l k v s _ Hk].
  - done.
  - rewrite construct_root in Hc by done. injection Hc as <- <-.
    by apply root_pristine.
  - by eapply derive_pristine.
  - by apply pristine_write.
  - by eapply cancel_pristine.
  - by apply pristine_on.
  - by eapply tick_pristine.
  - by apply pristine_new_obj.
  - by apply pristine_obj_write.
Qed.

Lemma run_pristine os : ∀ s s',
  pristine s → run rt os s = Some s' → pristine s'.
Proof.
  induction os as [|o os IH]; intros s s' Hp; simpl; [by intros [= <-]|].
  destruct (exec rt o s) as [s1|] eqn:E; simpl; [|done].
  apply IH. eapply step_pristine; [|done]. by apply exec_step.
Qed.

Lemma run_wf os : ∀ s s', wf s → run rt os s = Some s' → wf s'.
Proof.
  induction os as [|o os IH]; intros s s' Hwf; simpl; [by intros [= <-]|].
  destruct (exec rt o s) as [s1|] eqn:E; simpl; [|done].
  apply IH. by eapply exec_wf.
Qed.



Lemma evolves_refl W s : evolves W s s.
Proof.
  split_and!; [done| |done|by left]. intros a _. exists []. by rewrite app_nil_r.
Qed.

Lemma evolves_trans W s1 s2 s3 :
  evolves W s1 s2 → evolves W s2 s3 → evolves W s1 s3.
Proof.
  intros (L1 & Ls1 & F1 & C1) (L2 & Ls2 & F2 & C2). split_and!.
  - lia.
  - intros a Ha. destruct (Ls1 a Ha) as [l1 H1].
    destruct (Ls2 a) as [l2 H2]; [lia|].
    exists (l1 ++ l2). by rewrite H2, H1, app_assoc.
  - intros a k Ha Hk HW. rewrite F2 by (done || lia). by apply F1.
  - intros HW a Ha. destruct (C2 HW a) as [-> | ->]; [lia|by apply C1|by right].
Qed.

Lemma evolves_weaken (W W' : string → Prop) s s' :
  (∀ k, W k → W' k) → evolves W s s' → evolves W' s s'.
Proof.
  intros HW (L & Ls & F & C). split_and!; [done..| |].
  - intros a k Ha Hk Hn. apply F; [done..|]. naive_solver.
  - intros Hn. apply C. naive_solver.
Qed.

Lemma evolves_derives W p s s' : derives p s s' → evolves W s s'.
Proof.
  intros (L & Old & _ & Ls & _). split_and!.
  - lia.
  - intros a Ha. rewrite Ls. case_decide as E; [subst; by eexists|].
    exists []. by rewrite app_nil_r.
  - intros a k Ha _ _. by apply Old.
  - intros _ a Ha. left. by apply Old.
Qed.

Lemma evolves_root W s : evolves W s (root_state rt s).
Proof.
  split_and!.
  - rewrite root_length. lia.
  - intros a Ha. rewrite root_listeners. exists []. by rewrite app_nil_r.
  - intros a k Ha _ _. by apply root_get_old.
  - intros _ a Ha. left. by apply root_get_old.
Qed.

Lemma evolves_drifts W P s s' : drifts P s s' → evolves W s s'.
Proof.
  intros (L & Ls & F & C & _). simpl in *. split_and!.
  - lia.
  - intros a Ha. rewrite Ls. exists []. by rewrite app_nil_r.
  - intros a k Ha Hk _. apply F. by left.
  - intros _ a Ha. apply C.
Qed.

Lemma evolves_on W a l s : evolves W s (on a l s).
Proof.
  split_and!.
  - by rewrite length_on.
  - intros x Hx. destruct (decide (x = a)) as [-> | Hne].
    + rewrite listeners_of_on_eq by done. by eexists.
    + rewrite listeners_of_on_ne by done. exists []. by rewrite app_nil_r.
  - intros x k _ _ _. apply get_prop_on.
  - intros _ x _. left. apply get_prop_on.
Qed.

Lemma evolves_write W a k v s : W k → evolves W s (write_prop a k v s).
Proof.
  intros HW. split_and!.
  - by rewrite length_write_prop.
  - intros x Hx. rewrite listeners_of_write_prop. exists [].
    by rewrite app_nil_r.
  - intros x k' _ _ Hk'. apply get_prop_write_ne. right. by intros ->.
  - intros Hc x _. left. apply get_prop_write_ne. right. by intros ->.
Qed.

(** What one call leaves of the contexts that exist. *)
Lemma exec_evolves o s s' :
  exec rt o s = Some s' → evolves (λ k, sets_key k o) s s'.
Proof.
  destruct o as [v|a k v|a v|a v|a v|a|a n|d|m|l k v]; simpl.
  - destruct (live v s) eqn:Hl; [|done]. intros [= <-].
    destruct (truthy v) eqn:Ht; [|by rewrite construct_root; [apply evolves_root|]].
    destruct (is_context v) eqn:Hc;
      [|rewrite construct_throw by done; apply evolves_refl].
    destruct v; try done. simpl in Hl. apply bool_decide_eq_true in Hl.
    rewrite construct_ctx. simpl.
    eapply evolves_derives. by apply derived_derives.
  - change (exec rt (OSet a k v) s = Some s'
            → evolves (λ k0, sets_key k0 (OSet a k v)) s s').
    intros (_ & _ & [-> | (_ & _ & ->)])%exec_set; [apply evolves_refl|].
    by apply evolves_write.
  - case_bool_decide as Ha; [|done]. intros [= <-].
    destruct (withDeadline rt a v s) as [x s1|msg s1|s1] eqn:E; simpl.
    + eapply evolves_derives. by eapply (derive_derives rt (DDeadline v)).
    + apply withDeadline_throws in E as [-> _]. apply evolves_refl.
    + by destruct (derive_settles rt (DDeadline v) a s s1).
  - case_bool_decide as Ha; [|done]. intros [= <-].
    destruct (withTimeout rt a v s) as [x s1|msg s1|s1] eqn:E; simpl.
    + eapply evolves_derives. by eapply (derive_derives rt (DTimeout v)).
    + apply withTimeout_throws in E as [-> _]. apply evolves_refl.
    + by destruct (derive_settles rt (DTimeout v) a s s1).
  - case_bool_decide as Ha; [|done]. destruct (live v s); [|done]. simpl.
    intros [= <-].
    destruct (withValues rt a v s) as [x s1|msg s1|s1] eqn:E; simpl.
    + eapply evolves_derives. by eapply (derive_derives rt (DValues v)).
    + apply withValues_throws in E as [-> _]. apply evolves_refl.
    + by destruct (derive_settles rt (DValues v) a s s1).
  - case_bool_decide as Ha; [|done]. intros H.
    eapply (evolves_drifts _ (λ _, True)). apply confined_drifts.
    by eapply cancel_confined.
  - case_bool_decide as Ha; [|done]. intros [= <-]. apply evolves_on.
  - destruct (0 <=? d)%Z; [|done]. intros H.
    eapply (evolves_drifts _ (λ _, True)).
    eapply tick_drifts; [done| |done]. by apply Forall_forall.
  - change (exec rt (OAlloc m) s = Some s'
            → evolves (λ k0, sets_key k0 (OAlloc m)) s s').
    intros [_ ->]%exec_alloc. exact (evolves_refl _ s).
  - change (exec rt (OWrite l k v) s = Some s'
            → evolves (λ k0, sets_key k0 (OWrite l k v)) s s').
    intros (_ & _ & ->)%exec_write. unfold obj_write.
    destruct (String.eqb k "__proto__"); exact (evolves_refl _ s).
Qed.

Lemma run_evolves os : ∀ s s',
  run rt os s = Some s' → evolves (λ k, Exists (sets_key k) os) s s'.
Proof.
  induction os as [|o os IH]; intros s s'; simpl.
  - intros [= <-]. apply evolves_refl.
  - destruct (exec rt o s) as [s1|] eqn:E; simpl; [|done]. intros H.
    eapply evolves_trans.
    + eapply evolves_weaken; [|by apply exec_evolves]. intros k Hk. by left.
    + eapply evolves_weaken; [|by apply IH]. intros k Hk. by right.
Qed.

End Program_lemmas.

(** ** The claims *)

Section Claims.

Variable rt : runtime.

Implicit Types (s : state) (a b p c g : nat) (k : string) (v : value).






(** C3, amended: a root starts with [cancelled = false]; through every
    sequence of calls in which [set] does not assign [cancelled], a context
    whose [cancelled] is [true] keeps it [true]; and a context derived
    afterward from such a context has [cancelled = true] as soon as the
    derivation returns. *)
Theorem cancelled_monotonic :
  (∀ v s this s', construct rt v s = Ret this s' → truthy v = false →
                  get_prop this "cancelled" s' = VBool false)
  ∧ (∀ os s s' a,
        Forall (λ o, ¬ sets_key "cancelled" o) os →
        run rt os s = Some s' →
        get_prop a "cancelled" s = VBool true →
        get_prop a "cancelled" s' = VBool true)
  ∧ (∀ os s s' a d c s'',
        Forall (λ o, ¬ sets_key "cancelled" o) os →
        run rt os s = Some s' →
        get_prop a "cancelled" s = VBool true →
        derive rt d a s' = Ret c s'' →
        get_prop c "cancelled" s'' = VBool true).
Proof.
  assert (∀ os s s' a,
            Forall (λ o, ¬ sets_key "cancelled" o) os →
            run rt os s = Some s' →
            get_prop a "cancelled" s = VBool true →
            get_prop a "cancelled" s' = VBool true) as Hkeep.
  { intros os s s' a Hos Hrun Ha.
    assert (a < length (ctxs s)) as Hlt by (apply (get_prop_lt a "cancelled"); by rewrite Ha).
    destruct (run_evolves rt _ _ _ Hrun) as (_ & _ & _ & C).
    destruct (C (λ H, proj1 (Forall_Exists_neg _ _) Hos H) a Hlt)
      as [-> | ->]; done. }
  split_and!; [|exact Hkeep|].
  - intros v s this s' H Hv. rewrite construct_root in H by done.
    injection H as <- <-. apply root_cancelled.
  - intros os s s' a d c s'' Hos Hrun Ha Hd.
    pose proof (Hkeep _ _ _ _ Hos Hrun Ha) as Ha'.
    assert (a < length (ctxs s')) as Hlt by (apply (get_prop_lt a "cancelled"); by rewrite Ha').
    destruct (derive_derives rt _ _ _ _ _ Hlt Hd) as [-> (_ & _ & New & _)].
    rewrite New by auto. done.
Qed.

(** C4: along every chain of derivations from a context [c] to a context
    [c'], [c'.id] is [c.id]; the contexts that existed keep their [id], so
    all the contexts derived from [c] share it. *)
Theorem id_invariant s c s' c' :
  c < length (ctxs s) → chain rt s c s' c' →
  get_prop c' "id" s' = get_prop c "id" s
  ∧ ∀ a, a < length (ctxs s) → get_prop a "id" s' = get_prop a "id" s.
Proof.
  intros Hc H. induction H as [s c|s c o s1 s' c' Ho Hid _ IH
                               |s c d c1 s1 s' c' Hd _ IH].
  - done.
  - destruct (exec_evolves rt _ _ _ Ho) as (L & _ & F & _).
    destruct IH as [IH1 IH2]; [lia|].
    split.
    + rewrite IH1. by apply F.
    + intros a Ha. rewrite IH2 by lia. by apply F.
  - destruct (derive_derives rt _ _ _ _ _ Hc Hd) as [-> (L & Old & New & _)].
    destruct IH as [IH1 IH2]; [lia|].
    split.
    + rewrite IH1. apply New. by left.
    + intros a Ha. rewrite IH2 by lia. by apply Old.
Qed.

(** C7, amended: each operation throws one of the errors of the class
    exactly when its guard fails: the constructor on a truthy parent that is
    not a context, [withDeadline] on a value that is not a Date,
    [withTimeout] on a value that is not an integer, [withValues] on a
    primitive, [set] on the key [id] with a value that is not a string; it
    then throws the error of that guard, in the state in which it was
    called. *)
Theorem throws_on_guard_only :
  (∀ v s, invalid_argument (construct rt v s)
          ↔ truthy v = true ∧ is_context v = false)
  ∧ (∀ this v s, invalid_argument (withDeadline rt this v s)
                 ↔ is_date v = false)
  ∧ (∀ this v s, invalid_argument (withTimeout rt this v s)
                 ↔ is_integer v = false)
  ∧ (∀ this v s, invalid_argument (withValues rt this v s)
                 ↔ is_object v = false)
  ∧ (∀ this k v s, invalid_argument (set this k v s)
                   ↔ k = "id" ∧ isString v = false)
  ∧ (∀ v s, truthy v = true → is_context v = false →
            construct rt v s = Throw "parent must be a Context" s)
  ∧ (∀ this v s, is_date v = false →
                 withDeadline rt this v s = Throw "deadline must be a Date" s)
  ∧ (∀ this v s, is_integer v = false →
                 withTimeout rt this v s = Throw "ms must be an Integer" s)
  ∧ (∀ this v s, is_object v = false →
                 withValues rt this v s = Throw "values must be an Object" s)
  ∧ (∀ this v s, isString v = false →
                 set this "id" v s = Throw "id must be a String" s).
Proof.
  split_and!.
  - intros v s. split.
    + destruct (construct rt v s) eqn:E; [done| |done]. intros _.
      by apply construct_throws in E as (_ & ? & ?).
    + intros [H1 H2]. rewrite construct_throw by done.
      unfold invalid_argument, guard_messages. set_solver.
  - intros this v s. split.
    + destruct (withDeadline rt this v s) eqn:E; [done| |done]. intros _.
      by apply withDeadline_throws in E as [_ ?].
    + intros H. rewrite withDeadline_throw by done.
      unfold invalid_argument, guard_messages. set_solver.
  - intros this v s. split.
    + destruct (withTimeout rt this v s) eqn:E; [done| |done]. intros _.
      by apply withTimeout_throws in E as [_ ?].
    + intros H. rewrite withTimeout_throw by done.
      unfold invalid_argument, guard_messages. set_solver.
  - intros this v s. split.
    + destruct (withValues rt this v s) eqn:E; [done| |done]. intros _.
      by apply withValues_throws in E as [_ ?].
    + intros H. rewrite withValues_throw by done.
      unfold invalid_argument, guard_messages. set_solver.
  - intros this k v s. split.
    + destruct (set this k v s) eqn:E; [done| |done]. intros _.
      by apply set_throw in E as (_ & ? & ?).
    + intros [-> H]. rewrite set_throws by done.
      unfold invalid_argument, guard_messages. set_solver.
  - intros v s H1 H2. by apply construct_throw.
  - intros this v s H. by apply withDeadline_throw.
  - intros this v s H. by apply withTimeout_throw.
  - intros this v s H. by apply withValues_throw.
  - intros this v s H. by apply set_throws.
Qed.

(** C9, amended: for a key other than [id] and [__proto__], [set] assigns
    any value and returns its receiver; under [__proto__] it returns its
    receiver and stores nothing when the value is not an object;
    [set('cancelled', false)] on a cancelled context makes [cancelled] read
    [false]; [set('id', str)] succeeds for every string and leaves the [id]
    of the other contexts as it was. *)
Theorem set_unchecked s a k v :
  a < length (ctxs s) → k ≠ "id" → k ≠ "__proto__" →
  set a k v s = Ret a (write_prop a k v s)
  ∧ get_prop a k (write_prop a k v s) = v
  ∧ (∀ w, unboxed w = true → set a "__proto__" w s = Ret a s)
  ∧ (get_prop a "cancelled" s = VBool true →
     get_prop a "cancelled" (final (set a "cancelled" (VBool false) s))
     = VBool false)
  ∧ ∀ str, set a "id" (VStr str) s = Ret a (write_prop a "id" (VStr str) s)
           ∧ get_prop a "id" (write_prop a "id" (VStr str) s) = VStr str
           ∧ ∀ b, b ≠ a →
                  get_prop b "id" (write_prop a "id" (VStr str) s)
                  = get_prop b "id" s.
Proof.
  intros Ha Hk Hp. split_and!.
  - apply set_assigns; [done|by left].
  - by apply get_prop_write_eq.
  - intros w Hw. by rewrite set_proto, Hw.
  - intros _. rewrite set_assigns by (done || by left). simpl.
    by apply get_prop_write_eq.
  - intros str. split_and!.
    + apply set_assigns; [done|by right].
    + by apply get_prop_write_eq.
    + intros b Hb. apply get_prop_write_ne. left. done.
Qed.



Lemma deadline_get this t s :
  this < length (ctxs s) →
  get_prop (length (ctxs s)) "deadline" (deadline_state rt this t s)
  = if adopts rt (VDate t) (get_prop this "deadline" s)
    then VDate t else get_prop this "deadline" s.
Proof.
  intros Hthis. unfold deadline_state. cbv zeta.
  destruct (adopts rt (VDate t) (get_prop this "deadline" s)).
  - change (get_prop ?a ?k (set_timers ?q ?s)) with (get_prop a k s).
    apply get_prop_write_eq. rewrite derived_length. lia.
  - apply derived_get_new; auto.
Qed.


Lemma adopts_dates t t0 :
  adopts rt (VDate (Some t)) (VDate (Some t0)) = (t <? t0)%Z.
Proof. done. Qed.


(** C5, amended: the [values] of the context a derivation returns is an
    object allocated by the derivation, so it is not the storage of the
    values of the parent, of a sibling or of any object that existed, and a
    write of a key of the one is not visible in the other.  It holds the
    entries of the parent's values, under those of the object handed to
    [withValues] when that is the derivation, but for the key [__proto__],
    which [Object.assign] does not copy: the copy is shallow, and a
    structure nested in the values is the same object in parent and
    child. *)
Theorem values_shallow_copy s p d c s' o :
  p < length (ctxs s) → get_prop p "values" s = VObj o →
  o < length (objs s) →
  derive rt d p s = Ret c s' →
  ∃ o', get_prop c "values" s' = VObj o'
        ∧ length (objs s) ≤ o' < length (objs s')
        ∧ o' ≠ o
        ∧ get_prop p "values" s' = VObj o
        ∧ (∀ l, l < length (objs s) → obj_at l s' = obj_at l s)
        ∧ (∀ l k v, l < length (objs s) →
                    obj_at l (obj_write o' k v s') = obj_at l s'
                    ∧ obj_at o' (obj_write l k v s') = obj_at o' s')
        ∧ (plain_arg s d →
           obj_at o' s' = assignable (supplied d s ∪ obj_at o s)
           ∧ ∀ k, k ≠ "__proto__" →
                  obj_at o' s' !! k
                  = match supplied d s !! k with
                    | Some v => Some v
                    | None => obj_at o s !! k
                    end).
Proof.
  intros Hp Ho Hlive Hd.
  destruct (derive_derives rt _ _ _ _ _ Hp Hd)
    as [-> (L & Old & _ & _ & (os & Hos & o' & Ho' & Hfresh) & _)].
  exists o'. split_and!; [done|lia|lia|lia| | | |].
  - by rewrite Old.
  - intros l Hl. unfold obj_at. by rewrite Hos, lookup_app_l.
  - intros l k v Hl. split; apply obj_at_write_ne; lia.
  - intros Hpl.
    destruct (derive_values rt _ _ _ _ _ _ Hp Ho Hlive Hpl Hd)
      as (o1 & Ho1 & _ & Hat & _).
    rewrite Ho' in Ho1. injection Ho1 as <-. split; [done|].
    intros k Hk. rewrite Hat, assignable_lookup, lookup_union by done.
    by destruct (supplied d s !! k), (obj_at o s !! k).
Qed.








Section Timer_stages.

Variables (t : timer) (c n : nat) (tr0 : list (nat * listener)).







End Timer_stages.





End Claims.

(** ** The claims on concrete programs *)





(** C3 as stated fails: [set('cancelled', false)] after [cancel]. *)
Lemma cancelled_reset_counterexample :
  ∃ s, cancel 0 one_root = Some s
       ∧ get_prop 0 "cancelled" s = VBool true
       ∧ get_prop 0 "cancelled" (final (set 0 "cancelled" (VBool false) s))
         = VBool false.
Proof.
  eexists. split; [vm_compute; reflexivity|]. vm_compute. tauto.
Qed.

(** C3, amended, at [root.cancel()] followed by two derivations. *)
Lemma cancelled_monotonic_witness :
  ∃ s s', cancel 0 one_root = Some s
          ∧ get_prop 0 "cancelled" s = VBool true
          ∧ run rt0 [ONew (VCtx 0); OTick 5] s = Some s'
          ∧ get_prop 0 "cancelled" s' = VBool true.
Proof.
  destruct (cancel 0 one_root) as [s|] eqn:E; [|by vm_compute in E].
  destruct (run rt0 [ONew (VCtx 0); OTick 5] s) as [s'|] eqn:R;
    [|by vm_compute in E; injection E as <-; vm_compute in R].
  assert (get_prop 0 "cancelled" s = VBool true) as H.
  { vm_compute in E. injection E as <-. reflexivity. }
  exists s, s'. split; [reflexivity|]. split; [exact H|].
  split; [exact R|].
  apply (proj1 (proj2 (cancelled_monotonic rt0))
           [ONew (VCtx 0); OTick 5] s s' 0); [|exact R|exact H].
  repeat constructor; simpl; tauto.
Defined.

(** C4 at [new Context(root.withTimeout(10))]. *)
Lemma id_invariant_witness :
  0 < length (ctxs one_root)
  ∧ ∃ s', chain rt0 one_root 0 s' 2
          ∧ get_prop 2 "id" s' = get_prop 0 "id" one_root.
Proof.
  split; [vm_compute; lia|].
  assert (chain rt0 one_root 0
            (final (construct rt0 (VCtx 1)
               (final (withTimeout rt0 0 (VNum (NInt 10)) one_root)))) 2)
    as Hchain.
  { apply (chain_derive rt0 _ _ (DTimeout (VNum (NInt 10))) 1
             (final (withTimeout rt0 0 (VNum (NInt 10)) one_root)));
      [vm_compute; reflexivity|].
    apply (chain_derive rt0 _ _ DNew 2
             (final (construct rt0 (VCtx 1)
                (final (withTimeout rt0 0 (VNum (NInt 10)) one_root)))));
      [vm_compute; reflexivity|].
    apply chain_here. }
  eexists. split; [exact Hchain|].
  apply (id_invariant rt0 one_root 0 _ 2); [vm_compute; lia|exact Hchain].
Defined.

(** C4 as stated fails: with [a = new Context(root)], [a.set('id', 'x')]
    and [b = new Context(a)], a chain of derivations leads from [root] to
    [b], and the [id] of [b] is not the [id] of [root]. *)
Lemma id_reassigned_counterexample :
  ∃ s1 s2 s3,
    derive rt0 DNew 0 one_root = Ret 1 s1
    ∧ exec rt0 (OSet 1 "id" (VStr "x")) s1 = Some s2
    ∧ derive rt0 DNew 1 s2 = Ret 2 s3
    ∧ get_prop 2 "id" s3 = VStr "x"
    ∧ get_prop 0 "id" s3 = VStr "u"
    ∧ get_prop 2 "id" s3 ≠ get_prop 0 "id" s3.
Proof.
  eexists _, _, _. split; [vm_compute; reflexivity|].
  split; [vm_compute; reflexivity|]. split; [vm_compute; reflexivity|].
  vm_compute. repeat split; discriminate.
Qed.

(** C5 as stated fails: with [parent.values = {nested: {x: 1}}] and
    [child = new Context(parent)], the two values are distinct objects, yet
    [child.values.nested.x = 2] is read back through the parent.  And the
    copy leaves out an own property [__proto__] of the values of the
    parent. *)
Lemma deep_copy_counterexample :
  (∃ s, run rt0 [OAlloc {["x" := VNum (NInt 1)]};
                 OAlloc {["nested" := VObj 0]};
                 ONew VUndef;
                 OWithValues 0 (VObj 1);
                 ONew (VCtx 1)] (init 0) = Some s
        ∧ get_prop 1 "values" s ≠ get_prop 2 "values" s
        ∧ read_path 1 "nested" "x" s = VNum (NInt 1)
        ∧ read_path 1 "nested" "x"
            (write_path 2 "nested" "x" (VNum (NInt 2)) s)
          = VNum (NInt 2))
  ∧ ∃ s, run rt0 [OAlloc {["__proto__" := VNum (NInt 5)]};
                  ONew VUndef;
                  OSet 0 "values" (VObj 0);
                  ONew (VCtx 0)] (init 0) = Some s
         ∧ get_prop 0 "values" s = VObj 0
         ∧ get_prop 1 "values" s = VObj 2
         ∧ obj_at 0 s !! "__proto__" = Some (VNum (NInt 5))
         ∧ obj_at 2 s !! "__proto__" = None.
Proof.
  split.
  - eexists. split; [vm_compute; reflexivity|].
    vm_compute. repeat split; discriminate.
  - eexists. split; [vm_compute; reflexivity|].
    vm_compute. repeat split.
Qed.

(** C5, amended, at the same parent and child. *)
Lemma values_shallow_copy_witness :
  ∃ s, run rt0 [OAlloc {["x" := VNum (NInt 1)]};
                OAlloc {["nested" := VObj 0]};
                ONew VUndef;
                OWithValues 0 (VObj 1)] (init 0) = Some s
       ∧ 1 < length (ctxs s)
       ∧ get_prop 1 "values" s = VObj 4
       ∧ 4 < length (objs s)
       ∧ ∃ s' o', construct rt0 (VCtx 1) s = Ret 2 s'
                  ∧ get_prop 2 "values" s' = VObj o'
                  ∧ o' ≠ 4
                  ∧ obj_at o' s' = obj_at 4 s
                  ∧ obj_at o' s' !! "nested" = Some (VObj 0).
Proof.
  eexists. split; [vm_compute; reflexivity|].
  match goal with |- context [get_prop 1 "values" ?st] => set (s := st) end.
  assert (1 < length (ctxs s)) as H1 by (vm_compute; lia).
  assert (get_prop 1 "values" s = VObj 4) as H2 by (vm_compute; reflexivity).
  assert (4 < length (objs s)) as H3 by (vm_compute; lia).
  split; [exact H1|]. split; [exact H2|]. split; [exact H3|].
  assert (derive rt0 DNew 1 s = Ret 2 (final (construct rt0 (VCtx 1) s)))
    as H4 by (vm_compute; reflexivity).
  destruct (values_shallow_copy rt0 s 1 DNew 2
              (final (construct rt0 (VCtx 1) s)) 4 H1 H2 H3 H4)
    as (o' & Ho' & _ & Hne & _ & _ & _ & Hcopy).
  exists (final (construct rt0 (VCtx 1) s)), o'.
  split; [exact H4|]. split; [exact Ho'|]. split; [exact Hne|].
  destruct (Hcopy I) as [Hall Hkey].
  split.
  - rewrite Hall. vm_compute. reflexivity.
  - rewrite (Hkey "nested") by discriminate. vm_compute. reflexivity.
Defined.



(** C7 as stated fails: the number 0 is a parent that is provided and is
    not a context, and [new Context(0)] returns a root. *)
Lemma falsy_parent_counterexample :
  is_context (VNum (NInt 0)) = false
  ∧ construct rt0 (VNum (NInt 0)) (init 0) = Ret 0 one_root
  ∧ ¬ invalid_argument (construct rt0 (VNum (NInt 0)) (init 0)).
Proof.
  split; [reflexivity|]. split; [vm_compute; reflexivity|].
  vm_compute. tauto.
Qed.

(** C7, amended, at the arguments of the validation scenario: an object
    that is not a context, the number 1 as a deadline, 1.1 as a timeout,
    [undefined] as values, 123 as an id. *)
Lemma throws_on_guard_only_witness :
  invalid_argument (construct rt0 (VObj 0) one_root)
  ∧ invalid_argument (withDeadline rt0 0 (VNum (NInt 1)) one_root)
  ∧ invalid_argument (withTimeout rt0 0 (VNum NOther) one_root)
  ∧ invalid_argument (withValues rt0 0 VUndef one_root)
  ∧ invalid_argument (set 0 "id" (VNum (NInt 123)) one_root)
  ∧ ¬ invalid_argument (set 0 "id" (VStr "abc") one_root)
  ∧ withValues rt0 0 VUndef one_root
    = Throw "values must be an Object" one_root.
Proof.
  destruct (throws_on_guard_only rt0)
    as (H1 & H2 & H3 & H4 & H5 & _ & _ & _ & H9 & _).
  split; [apply H1; split; reflexivity|].
  split; [apply H2; reflexivity|].
  split; [apply H3; reflexivity|].
  split; [apply H4; reflexivity|].
  split; [apply H5; split; reflexivity|].
  split.
  - intros H. apply H5 in H as [_ H]. discriminate H.
  - apply H9. reflexivity.
Defined.



(** C9 as stated fails: [__proto__] is a key other than [id], and
    [root.set('__proto__', 5)] returns [root] and assigns nothing: the
    assignment goes to the setter of [Object.prototype], which ignores a
    number, and [root] has no property of that name afterwards. *)
Lemma set_proto_counterexample :
  "__proto__" ≠ "id"
  ∧ set 0 "__proto__" (VNum (NInt 5)) one_root = Ret 0 one_root
  ∧ own_prop 0 "__proto__" one_root = None
  ∧ get_prop 0 "__proto__" one_root ≠ VNum (NInt 5).
Proof.
  split; [discriminate|]. split; [vm_compute; reflexivity|].
  split; [vm_compute; reflexivity|]. vm_compute. discriminate.
Qed.

(** C9, amended, at [root.set('cancelled', false)]. *)
Lemma set_unchecked_witness :
  0 < length (ctxs one_root) ∧ "cancelled" ≠ "id" ∧ "cancelled" ≠ "__proto__"
  ∧ set 0 "cancelled" (VBool false) one_root
    = Ret 0 (write_prop 0 "cancelled" (VBool false) one_root)
  ∧ set 0 "id" (VStr "other") one_root
    = Ret 0 (write_prop 0 "id" (VStr "other") one_root).
Proof.
  assert (0 < length (ctxs one_root)) as H1 by (vm_compute; lia).
  assert ("cancelled" ≠ "id") as H2 by discriminate.
  assert ("cancelled" ≠ "__proto__") as H3 by discriminate.
  split; [exact H1|]. split; [exact H2|]. split; [exact H3|].
  destruct (set_unchecked one_root 0 "cancelled" (VBool false) H1 H2 H3)
    as (E & _ & _ & _ & Hid).
  split; [exact E|]. exact (proj1 (Hid "other")).
Defined.



(** ** The test suite of the repository, on the model *)

(** 'should inherit parent's cancelled state' and 'should cancel if parent
    is cancelled'. *)
Example test_inherits_cancelled :
  ∃ s, run rt0 [ONew VUndef; OCancel 0; ONew (VCtx 0)] (init 0) = Some s
       ∧ get_prop 0 "cancelled" s = VBool true
       ∧ get_prop 1 "cancelled" s = VBool true.
Proof. eexists. split; [vm_compute; reflexivity|]. by vm_compute. Qed.

Example test_cancel_reaches_child :
  ∃ s, run rt0 [ONew VUndef; ONew (VCtx 0); OCancel 0] (init 0) = Some s
       ∧ get_prop 0 "cancelled" s = VBool true
       ∧ get_prop 1 "cancelled" s = VBool true
       ∧ trace s = [(0, LCancel 1)].
Proof. eexists. split; [vm_compute; reflexivity|]. by vm_compute. Qed.

(** 'should not be cancelled', 'should not have a deadline', 'should have
    empty values'. *)
Example test_root_defaults :
  get_prop 0 "cancelled" one_root = VBool false
  ∧ get_prop 0 "deadline" one_root = VNull
  ∧ get_prop 0 "values" one_root = VObj 0
  ∧ obj_at 0 one_root = ∅.
Proof. by vm_compute. Qed.

(** 'should inherit clone of parent's values'. *)
Example test_inherits_clone :
  ∃ s, run rt0 [OAlloc {["one" := VNum (NInt 1)]}; ONew VUndef;
                OSet 0 "values" (VObj 0); ONew (VCtx 0)] (init 0) = Some s
       ∧ get_prop 0 "values" s = VObj 0
       ∧ get_prop 1 "values" s = VObj 2
       ∧ obj_at 2 s = obj_at 0 s.
Proof. eexists. split; [vm_compute; reflexivity|]. by vm_compute. Qed.

(** 'should throw if parent is not a Context', 'should throw if id is not a
    string', 'should throw if values is not an object', 'should throw if
    deadline is not a date', 'should throw if ms is not an integer'. *)
Example test_throws :
  construct rt0 (VObj 0) one_root = Throw "parent must be a Context" one_root
  ∧ set 0 "id" (VNum (NInt 123)) one_root
    = Throw "id must be a String" one_root
  ∧ withValues rt0 0 VUndef one_root
    = Throw "values must be an Object" one_root
  ∧ withDeadline rt0 0 (VNum (NInt 1)) one_root
    = Throw "deadline must be a Date" one_root
  ∧ withTimeout rt0 0 (VNum NOther) one_root
    = Throw "ms must be an Integer" one_root.
Proof. repeat split. Qed.

(** Calls a program does not make: [set] under the name of a method or of
    a field of the emitter, and an assignment that replaces a prototype;
    [set('__proto__', 5)] is a call, and stores nothing. *)
Example test_reserved_names :
  exec rt0 (OSet 0 "set" (VNum (NInt 1))) one_root = None
  ∧ exec rt0 (OSet 0 "_events" VUndef) one_root = None
  ∧ exec rt0 (OSet 0 "__proto__" VNull) one_root = None
  ∧ exec rt0 (OSet 0 "__proto__" (VNum (NInt 5))) one_root = Some one_root
  ∧ exec rt0 (OAlloc {["__proto__" := VCtx 0]}) one_root = None.
Proof. vm_compute. repeat split. Qed.

(** 'should set key to value' and 'should return same context'. *)
Example test_set :
  ∃ s, set 0 "key" (VStr "test") one_root = Ret 0 s
       ∧ get_prop 0 "key" s = VStr "test".
Proof. eexists. split; [vm_compute; reflexivity|]. by vm_compute. Qed.

(** 'should set deadline to given date' and 'should ignore given date if
    current deadline is sooner'. *)
Example test_deadline_sooner :
  ∃ s, run rt0 [ONew VUndef; OWithDeadline 0 (new_Date 0);
                OWithDeadline 1 (new_Date 1)] (init 0) = Some s
       ∧ get_prop 1 "deadline" s = new_Date 0
       ∧ get_prop 2 "deadline" s = new_Date 0.
Proof. eexists. split; [vm_compute; reflexivity|]. by vm_compute. Qed.

(** 'should cancel when deadline is reached'. *)
Example test_deadline_reached :
  ∃ s1 s2, run rt0 [ONew VUndef; OWithDeadline 0 (new_Date 100); OOn 1 7;
                    OTick 99] (init 0) = Some s1
           ∧ get_prop 1 "cancelled" s1 = VBool false
           ∧ trace s1 = []
           ∧ exec rt0 (OTick 1) s1 = Some s2
           ∧ get_prop 1 "cancelled" s2 = VBool true
           ∧ trace s2 = [(0, LCancel 1); (1, LSpy 7)].
Proof.
  eexists _, _. split; [vm_compute; reflexivity|].
  split; [by vm_compute|]. split; [by vm_compute|].
  split; [vm_compute; reflexivity|]. by vm_compute.
Qed.

(** 'should call #withDeadline() with correct date': at clock 0,
    [withTimeout(100)] is [withDeadline(new Date(100))]. *)
Example test_timeout_date :
  withTimeout rt0 0 (VNum (NInt 100)) one_root
  = withDeadline rt0 0 (new_Date 100) one_root.
Proof. reflexivity. Qed.

(** ** Further properties of the class *)

Section Cancel_frame.

Implicit Types (s : state) (a b d : nat) (k : string).

Lemma descends_snoc s a b d :
  descends s a b → LCancel d ∈ listeners_of b s → descends s a d.
Proof.
  induction 1 as [a|a x b Hx _ IH]; intros Hd.
  - eapply descends_step; [done|constructor].
  - eapply descends_step; [done|by apply IH].
Qed.

Lemma descends_ge s a b : wf_heap s → descends s a b → a ≤ b.
Proof.
  intros Hwf. induction 1 as [a|a x b Hx _ IH]; [done|].
  apply Hwf in Hx. lia.
Qed.

Lemma descends_lt s a b :
  wf_heap s → descends s a b → a < length (ctxs s) → b < length (ctxs s).
Proof.
  intros Hwf. induction 1 as [a|a x b Hx _ IH]; [done|].
  intros _. apply IH. by apply Hwf in Hx as [_ ?].
Qed.

Lemma closed_descends s a : closed (descends s a) s.
Proof. intros x y Hx Hy. by eapply descends_snoc. Qed.

(** X1: [cancel] goes one way, down.  A context that is not the receiver
    and was not derived from it keeps every attribute: the parent, the
    ancestors and the siblings of the receiver (every older context) are
    not cancelled by it.  No attribute but [cancelled] changes on any
    context, no listener is added or removed, no timer is set or cleared,
    no object is touched, and every call is emitted from the receiver or
    from a context derived from it. *)
Theorem cancel_one_way a s s' :
  cancel a s = Some s' →
  (∀ b k, ¬ descends s a b → get_prop b k s' = get_prop b k s)
  ∧ (wf_heap s → ∀ b k, b < a → get_prop b k s' = get_prop b k s)
  ∧ (∀ b k, k ≠ "cancelled" → get_prop b k s' = get_prop b k s)
  ∧ (∀ b, listeners_of b s' = listeners_of b s)
  ∧ timers s' = timers s ∧ objs s' = objs s
  ∧ ∃ tr, trace s' = trace s ++ tr ∧ Forall (λ e, descends s a e.1) tr.
Proof.
  intros H.
  destruct (cancel_confined (descends s a) a s s')
    as (_ & Ls & F & _ & O & T & _ & _ & Tr);
    [apply closed_descends|constructor|done|].
  split_and!; try done.
  - intros b k Hb. apply F. by right.
  - intros Hwf b k Hb. apply F. right. intros Hd.
    apply (descends_ge _ _ _ Hwf) in Hd. lia.
  - intros b k Hk. apply F. by left.
Qed.

(** X2: [cancel] does not look at [cancelled]: on a context that is
    cancelled already it changes no attribute of any context and calls every
    listener of the receiver again, once each and in registration order. *)
Theorem cancel_again a s s1 s2 :
  wf_heap s → a < length (ctxs s) →
  cancel a s = Some s1 → cancel a s1 = Some s2 →
  (∀ b k, get_prop b k s2 = get_prop b k s1)
  ∧ ∃ tr, trace s2 = trace s1 ++ tr
          ∧ filter (λ e, e.1 = a) tr = (λ l, (a, l)) <$> listeners_of a s.
Proof.
  intros Hwf Ha H1 H2.
  pose proof (cancel_confined (λ _, True) a s s1 (λ _ _ _ _, I) I H1) as C1.
  assert (wf_heap s1) as Hwf1 by by eapply wf_heap_confined.
  set (P := λ b, descends s a b ∧ get_prop b "cancelled" s1 = VBool true).
  assert (closed P s1) as Hcl.
  { intros x y [Hx _] Hy. destruct C1 as (_ & Ls & _). rewrite Ls in Hy.
    assert (descends s a y) as Hdy by by eapply descends_snoc.
    split; [done|]. eapply cancel_descends; [done..|].
    by eapply descends_lt. }
  assert (P a) as HPa.
  { split; [constructor|]. eapply cancel_descends; [done|constructor|done]. }
  destruct (cancel_confined P a s1 s2 Hcl HPa H2) as (L & _ & F & C & _).
  split.
  - intros b k. destruct (decide (k = "cancelled")) as [-> | Hk];
      [|apply F; by left].
    destruct (C b) as [Heq | Htrue]; [done|].
    assert (get_prop b "cancelled" s1 = VBool true ∨ ¬ P b) as [E | HnP].
    { destruct (get_prop b "cancelled" s1) as [| |[]| | | | |] eqn:E;
        first [by left | right; intros [_ ?]; congruence]. }
    + by rewrite E.
    + apply F. by right.
  - destruct C1 as (_ & Ls1 & _). rewrite <- Ls1.
    by apply cancel_direct.
Qed.

End Cancel_frame.

Section Cancel_reach.

Implicit Types (s : state) (a b d : nat) (k : string).



End Cancel_reach.

Section Deadline_chains.

Variable rt : runtime.

Implicit Types (s : state) (a b c p : nat) (k : string) (v : value)
  (d : derivation).

(** The deadline of the context a derivation returns. *)
Lemma derive_deadline d p s c s' :
  p < length (ctxs s) → derive rt d p s = Ret c s' →
  get_prop c "deadline" s'
  = match d with
    | DDeadline (VDate t) =>
        if adopts rt (VDate t) (get_prop p "deadline" s)
        then VDate t else get_prop p "deadline" s
    | DTimeout (VNum (NInt z)) =>
        if adopts rt (new_Date (now s + z)) (get_prop p "deadline" s)
        then new_Date (now s + z) else get_prop p "deadline" s
    | _ => get_prop p "deadline" s
    end.
Proof.
  intros Hp Hd. destruct d as [|w|w|w]; simpl in Hd.
  - rewrite construct_ctx in Hd. injection Hd as <- <-.
    apply derived_get_new; auto.
  - destruct w; try (by rewrite withDeadline_throw in Hd).
    rewrite withDeadline_date in Hd by done. injection Hd as <- <-.
    by apply deadline_get.
  - destruct (is_integer w) eqn:E; [|by rewrite withTimeout_throw in Hd].
    destruct w as [| | |[z| |]| | | |]; try done.
    rewrite withTimeout_int in Hd. unfold new_Date in *.
    rewrite withDeadline_date in Hd by done. injection Hd as <- <-.
    by apply deadline_get.
  - destruct (is_object w) eqn:E; [|by rewrite withValues_throw in Hd].
    rewrite withValues_object in Hd by done. injection Hd as <- <-.
    unfold values_state. cbv zeta.
    rewrite get_prop_write_ne by (by right).
    change (get_prop ?a ?k (set_objs ?f ?s)) with (get_prop a k s).
    apply derived_get_new; auto.
Qed.



Lemma derive_chain_cons d ds c s c' s' :
  derive_chain rt (d :: ds) c s = Ret c' s' →
  ∃ c1 s1, derive rt d c s = Ret c1 s1 ∧ derive_chain rt ds c1 s1 = Ret c' s'.
Proof.
  simpl. unfold mbind, M_bind, bind.
  destruct (derive rt d c s) as [c1 s1| |]; [|done..]. by exists c1, s1.
Qed.

(** X5: along a chain of derivations a deadline is only ever tightened.
    From a context whose deadline is the valid Date [t0], any chain of
    constructor, [withDeadline], [withTimeout] and [withValues] calls ends
    in a context whose deadline is the earliest of [t0] and the valid time
    values offered on the way, whatever their order; an Invalid Date is
    never adopted over a valid deadline. *)
Theorem deadline_chain_earliest ds : ∀ c s c' s' t0,
  c < length (ctxs s) → get_prop c "deadline" s = VDate (Some t0) →
  derive_chain rt ds c s = Ret c' s' →
  get_prop c' "deadline" s' = VDate (Some (earliest (now s) t0 ds))
  ∧ (earliest (now s) t0 ds ≤ t0)%Z
  ∧ Forall (λ d, ∀ t, offered (now s) d = Some t →
                      (earliest (now s) t0 ds ≤ t)%Z) ds.
Proof.
  induction ds as [|d ds IH]; intros c s c' s' t0 Hc H0 Hch.
  - injection Hch as <- <-. split_and!; [done|done|constructor].
  - apply derive_chain_cons in Hch as (c1 & s1 & Hd & Hch).
    pose proof (derive_deadline _ _ _ _ _ Hc Hd) as Hdl.
    destruct (derive_derives rt _ _ _ _ _ Hc Hd)
      as [-> (L & _ & _ & _ & _ & N & _)].
    set (t1 := match offered (now s) d with
               | Some t => Z.min t0 t
               | None => t0
               end).
    assert (get_prop (length (ctxs s)) "deadline" s1 = VDate (Some t1)) as H1.
    { rewrite Hdl, H0. unfold t1.
      destruct d as [|[]|[| | |[z| |]| | | |]|]; simpl; try done.
      - destruct t as [t|]; [|done]. rewrite adopts_dates.
        destruct (Z.ltb_spec t t0); do 2 f_equal; lia.
      - unfold new_Date. destruct (time_clip (now s + z)) as [t|]; [|done].
        rewrite adopts_dates.
        destruct (Z.ltb_spec t t0); do 2 f_equal; lia. }
    assert (length (ctxs s) < length (ctxs s1)) as Hc1 by lia.
    destruct (IH _ _ _ _ t1 Hc1 H1 Hch) as (Hres & Hle & Hall).
    rewrite N in Hres, Hle, Hall.
    change (earliest (now s) t0 (d :: ds)) with (earliest (now s) t1 ds).
    split_and!; [done| |].
    + assert (t1 ≤ t0)%Z by (unfold t1; destruct (offered (now s) d); lia).
      lia.
    + constructor; [|done]. intros t Ht.
      assert (t1 ≤ t)%Z by (unfold t1; rewrite Ht; lia). lia.
Qed.


End Deadline_chains.

Section Deadline_timer.

Variable rt : runtime.

Implicit Types (s : state) (a b c p : nat) (k : string) (v : value)
  (d : derivation).


End Deadline_timer.

Section Root_ids.

Variable rt : runtime.

Implicit Types (s : state) (a b c p : nat) (k : string) (v : value)
  (d : derivation).

(** The identifiers handed out are counted: no call takes one back. *)
Lemma exec_uid (o : op) s s' : exec rt o s = Some s' → uid s ≤ uid s'.
Proof.
  intros H. apply exec_step in H.
  destruct H as [o s|v s c s' Hv Hc|o d p s c s' _ Hp Hd|this k v s _ _ _ _
                |this s s' _ Hc|this n s _|d s s' _ Ht|m s _|l k v s _ _];
    try (simpl; lia).
  - rewrite construct_root in Hc by done. injection Hc as <- <-.
    unfold root_state. simpl. lia.
  - destruct (derive_derives rt _ _ _ _ _ Hp Hd)
      as [_ (_ & _ & _ & _ & _ & _ & -> & _)]. done.
  - apply (cancel_confined (λ _, True)) in Hc; [|done..].
    destruct Hc as (_ & _ & _ & _ & _ & _ & _ & -> & _). done.
  - unfold tick in Ht. destruct (run_timers _ _ _) as [s1|] eqn:E; [|done].
    simpl in Ht. injection Ht as <-.
    apply (run_timers_drifts (λ _, True)) in E as [Hd _]; [|done|].
    + destruct Hd as (_ & _ & _ & _ & _ & _ & _ & Hu & _). simpl in *. lia.
    + by apply Forall_forall.
Qed.

Lemma run_uid os : ∀ s s', run rt os s = Some s' → uid s ≤ uid s'.
Proof.
  induction os as [|o os IH]; intros s s'; simpl.
  - by intros [= ->].
  - destruct (exec rt o s) as [s1|] eqn:E; [|done]. simpl. intros H.
    apply exec_uid in E. apply IH in H. lia.
Qed.

(** X10: a root is given an identifier that no root created before it was
    given, whatever the program did in between, as long as [unique()] does
    not repeat itself. *)
Theorem root_ids_distinct v1 v2 s a s1 os s2 b s3 :
  (∀ n m, unique_id rt n = unique_id rt m → n = m) →
  truthy v1 = false → truthy v2 = false →
  construct rt v1 s = Ret a s1 →
  run rt os s1 = Some s2 →
  construct rt v2 s2 = Ret b s3 →
  get_prop a "id" s1 = VStr (unique_id rt (uid s))
  ∧ get_prop b "id" s3 = VStr (unique_id rt (uid s2))
  ∧ get_prop b "id" s3 ≠ get_prop a "id" s1.
Proof.
  intros Hinj H1 H2 Ha Hrun Hb.
  rewrite construct_root in Ha, Hb by done.
  injection Ha as <- <-. injection Hb as <- <-.
  assert (∀ st, get_prop (length (ctxs st)) "id" (root_state rt st)
                = VStr (unique_id rt (uid st))) as Hid.
  { intros st. unfold root_state. cbv zeta.
    rewrite !get_prop_write_ne by (by right).
    change (get_prop ?a ?k (set_objs ?f ?s)) with (get_prop a k s).
    rewrite !get_prop_write_ne by (by right).
    apply get_prop_write_eq. heap_len. }
  rewrite !Hid. split_and!; [done..|].
  intros [= E]. apply Hinj in E.
  apply run_uid in Hrun. unfold root_state in Hrun. simpl in Hrun. lia.
Qed.

End Root_ids.

Section Values_chains.

Variable rt : runtime.

Implicit Types (s : state) (a b c p o : nat) (k : string) (v : value)
  (d : derivation).

Lemma plain_arg_mono s s' d :
  length (objs s) ≤ length (objs s') → plain_arg s d → plain_arg s' d.
Proof. intros H. destruct d as [| | |[]]; simpl; try done. lia. Qed.

Lemma supplied_ext s s' d :
  (∀ l, l < length (objs s) → obj_at l s' = obj_at l s) →
  plain_arg s d → supplied d s' = supplied d s.
Proof. intros H. destruct d as [| | |[]]; simpl; try done. apply H. Qed.

Lemma overlay_ext ds : ∀ s s' base,
  (∀ l, l < length (objs s) → obj_at l s' = obj_at l s) →
  Forall (plain_arg s) ds → overlay ds s' base = overlay ds s base.
Proof.
  induction ds as [|d ds IH]; intros s s' base H Hall; [done|].
  apply Forall_cons in Hall as [Hd Hall]. simpl.
  rewrite (supplied_ext s s' d) by done. by apply IH.
Qed.

Lemma overlay_assignable ds : ∀ s (b1 b2 : gmap string value),
  assignable b1 = assignable b2 →
  assignable (overlay ds s b1) = assignable (overlay ds s b2).
Proof.
  induction ds as [|d ds IH]; intros s b1 b2 H; [done|]. simpl.
  apply IH. by rewrite !assignable_union, H.
Qed.

Lemma values_chain_entries ds : ∀ c s c' s' o,
  c < length (ctxs s) → get_prop c "values" s = VObj o →
  o < length (objs s) → Forall (plain_arg s) ds →
  derive_chain rt ds c s = Ret c' s' →
  ∃ o', get_prop c' "values" s' = VObj o'
        ∧ assignable (obj_at o' s') = assignable (overlay ds s (obj_at o s))
        ∧ (ds ≠ [] → length (objs s) ≤ o'
                     ∧ obj_at o' s' !! "__proto__" = None)
        ∧ ∀ l, l < length (objs s) → obj_at l s' = obj_at l s.
Proof.
  induction ds as [|d ds IH]; intros c s c' s' o Hc Ho Hlo Hall Hch.
  - injection Hch as <- <-. exists o. by split_and!.
  - apply Forall_cons in Hall as [Hd Hall].
    apply derive_chain_cons in Hch as (c1 & s1 & Hd1 & Hch).
    destruct (derive_values rt _ _ _ _ _ _ Hc Ho Hlo Hd Hd1)
      as (o1 & Ho1 & [Hfr1 Hlo1] & Hat1 & Hold).
    destruct (derive_derives rt _ _ _ _ _ Hc Hd1) as [-> (L & _)].
    assert (length (ctxs s) < length (ctxs s1)) as Hc1 by lia.
    assert (Forall (plain_arg s1) ds) as Hall1.
    { eapply Forall_impl; [exact Hall|]. intros d'. apply plain_arg_mono. lia. }
    destruct (IH _ _ _ _ _ Hc1 Ho1 Hlo1 Hall1 Hch)
      as (o' & Ho' & Hat & Hfr & Hold').
    exists o'. split_and!; [done| | |].
    + rewrite Hat, Hat1, (overlay_ext ds s s1) by done. simpl.
      apply overlay_assignable, assignable_idemp.
    + intros _. destruct ds as [|d' ds'].
      * injection Hch as <- <-. rewrite Ho1 in Ho'. injection Ho' as <-.
        split; [lia|]. rewrite Hat1. apply assignable_proto.
      * destruct (Hfr ltac:(done)) as [Hge Hnone]. split; [lia|done].
    + intros l Hl. rewrite Hold' by lia. by apply Hold.
Qed.

(** X8: chains of derivations compose their values.  From a context whose
    values hold [obj_at o s], a chain of constructor, [withDeadline],
    [withTimeout] and [withValues] calls (each [withValues] with a plain
    object or a Date) ends in a context whose values hold, under every key
    but [__proto__], the entries of the objects handed to [withValues], a
    later one over an earlier one, over the entries the first context had;
    a Date adds nothing.  When the chain is not empty these values are a
    new object, which has no entry under [__proto__]; no object that
    existed is written. *)
Theorem values_chain ds c s c' s' o :
  c < length (ctxs s) → get_prop c "values" s = VObj o →
  o < length (objs s) → Forall (plain_arg s) ds →
  derive_chain rt ds c s = Ret c' s' →
  ∃ o', get_prop c' "values" s' = VObj o'
        ∧ (∀ k, k ≠ "__proto__" →
                obj_at o' s' !! k = overlay ds s (obj_at o s) !! k)
        ∧ (ds ≠ [] →
           length (objs s) ≤ o'
           ∧ obj_at o' s' = assignable (overlay ds s (obj_at o s)))
        ∧ ∀ l, l < length (objs s) → obj_at l s' = obj_at l s.
Proof.
  intros Hc Ho Hlo Hall Hch.
  destruct (values_chain_entries ds _ _ _ _ _ Hc Ho Hlo Hall Hch)
    as (o' & Ho' & Hat & Hfr & Hold).
  exists o'. split_and!; [done| | |done].
  - intros k Hk.
    rewrite <- (assignable_lookup (obj_at o' s')), Hat by done.
    by apply assignable_lookup.
  - intros Hne. destruct (Hfr Hne) as [Hge Hnone]. split; [done|].
    by rewrite <- Hat, assignable_id.
Qed.

End Values_chains.

Section Derivation_frame.

Variable rt : runtime.

Implicit Types (s : state) (a b c p o : nat) (k : string) (v : value)
  (d : derivation).





(** X7: what a derivation leaves alone.  On a heap in which no context has
    an own property under the name of a method or of a field of the
    emitter and no plain object an own property [__proto__] that holds an
    object, the constructor with a parent, [withDeadline], [withTimeout]
    and [withValues] change no attribute of a context that exists (the
    receiver included; the fields of its emitter, which takes the new
    listener, are no attributes), write no object that exists, call no
    listener, take no identifier from [unique()] and register one listener,
    the bound [cancel] of the new context, at the end of the listeners of
    the receiver and nowhere else; a timer they set is on the receiver; and
    the heap they leave is such a heap again. *)
Theorem derive_frame d p s c s' :
  pristine s → p < length (ctxs s) → derive rt d p s = Ret c s' →
  c = length (ctxs s)
  ∧ length (ctxs s') = S (length (ctxs s))
  ∧ (∀ a k, a < length (ctxs s) → emitter_field k = false →
            get_prop a k s' = get_prop a k s)
  ∧ (∀ l, l < length (objs s) → obj_at l s' = obj_at l s)
  ∧ listeners_of p s' = listeners_of p s ++ [LCancel c]
  ∧ (∀ a, a ≠ p → listeners_of a s' = listeners_of a s)
  ∧ trace s' = trace s ∧ uid s' = uid s ∧ now s' = now s
  ∧ (timers s' = timers s
     ∨ ∃ t, t_target t = p ∧ timers s' = enqueue t (timers s))
  ∧ pristine s'.
Proof.
  intros Hpr Hp Hd.
  pose proof (derive_pristine rt _ _ _ _ _ Hp Hpr Hd) as Hpr'.
  destruct (derive_derives rt _ _ _ _ _ Hp Hd)
    as [-> (L & Old & _ & Ls & (os & Hos & _) & N & U & Tr & T)].
  split_and!; try done.
  - intros a k Ha _. by apply Old.
  - intros l Hl. unfold obj_at. by rewrite Hos, lookup_app_l.
  - by rewrite Ls, decide_True.
  - intros a Ha. by rewrite Ls, decide_False.
Qed.

(** X11: through any program, from a heap in which no context has an own
    property under the name of a method or of a field of the emitter and no
    plain object an own property [__proto__] that holds an object, the
    contexts stay, their listeners are only added to (none is removed or
    moved), and an attribute other than [cancelled] that the program does
    not assign with [set] keeps the value it had: the deadline of a context
    and the object its values refer to never change after construction.
    The fields of the emitter are no attributes; the heap the program
    leaves is such a heap again. *)
Theorem attributes_stable os s s' a :
  pristine s → run rt os s = Some s' → a < length (ctxs s) →
  a < length (ctxs s')
  ∧ (∃ ls, listeners_of a s' = listeners_of a s ++ ls)
  ∧ (∀ k, k ≠ "cancelled" → emitter_field k = false →
          Forall (λ call, ¬ sets_key k call) os →
          get_prop a k s' = get_prop a k s)
  ∧ pristine s'.
Proof.
  intros Hpr Hrun Ha.
  destruct (run_evolves rt _ _ _ Hrun) as (L & Ls & Keep & _).
  split_and!; [lia|by apply Ls| |by eapply run_pristine].
  intros k Hk _ Hno. apply Keep; [done..|].
  intros Hex. apply Exists_exists in Hex as (call & Ho & Hs).
  rewrite Forall_forall in Hno. by apply (Hno call).
Qed.

End Derivation_frame.

Section Timer_after_cancel.

Variable rt : runtime.

Implicit Types (s : state) (a b c p : nat) (k : string) (v : value).



End Timer_after_cancel.

(** ** The TypeScript class against the JavaScript class *)

Ltac heap_get :=
  repeat first
    [ rewrite get_prop_on
    | progress change (get_prop ?a ?k (set_objs ?f ?s)) with (get_prop a k s)
    | progress change (get_prop ?a ?k (set_timers ?q ?s)) with (get_prop a k s)
    | progress change (get_prop ?a ?k (set_uid ?n ?s)) with (get_prop a k s)
    | progress change (get_prop ?a ?k (set_now ?n ?s)) with (get_prop a k s)
    | progress change (get_prop ?a ?k (set_trace ?f ?s)) with (get_prop a k s)
    | rewrite get_prop_write_eq by heap_len
    | rewrite get_prop_write_ne by (first [by right | left; lia])
    | rewrite get_prop_alloc by lia
    | rewrite get_prop_alloc_new ].

Section TS_lemmas.

Variable rt : runtime.

Implicit Types (s j : state) (a b p : nat) (k : string) (v : value).

Lemma ts_construct_ctx p s :
  TS.construct rt (VCtx p) s = Ret (length (ctxs s)) (TS.derived_state rt p s).
Proof. reflexivity. Qed.

Lemma ts_construct_root v s :
  truthy v = false →
  TS.construct rt v s = Ret (length (ctxs s)) (TS.root_state rt s).
Proof. intros H. unfold TS.construct. rewrite H. reflexivity. Qed.

Lemma ts_derived_length p s :
  length (ctxs (TS.derived_state rt p s)) = S (length (ctxs s)).
Proof. unfold TS.derived_state. cbv zeta. by heap_len. Qed.

Lemma ts_derived_get_old a k p s :
  a < length (ctxs s) →
  get_prop a k (TS.derived_state rt p s) = get_prop a k s.
Proof. intros Ha. unfold TS.derived_state. cbv zeta. by heap_get. Qed.

Lemma ts_derived_get_new k p s :
  p < length (ctxs s) → k = "_id" ∨ k = "_cancelled" ∨ k = "_deadline" →
  get_prop (length (ctxs s)) k (TS.derived_state rt p s) = get_prop p k s.
Proof.
  intros Hp Hk. unfold TS.derived_state, TS.id, TS.cancelled, TS.deadline.
  cbv zeta. destruct Hk as [-> | [-> | ->]]; by heap_get.
Qed.




Lemma ts_withDeadline_date this t s :
  this < length (ctxs s) →
  TS.withDeadline rt this (VDate t) s
  = Ret (length (ctxs s)) (TS.deadline_state rt this t s).
Proof.
  intros Hthis. unfold TS.withDeadline, TS.deadline_state.
  cbn [is_date negb]. unfold mbind, M_bind, bind. rewrite ts_construct_ctx.
  unfold gets at 1. unfold TS.deadline.
  rewrite !(ts_derived_get_new "_deadline") by auto.
  fold (adopts rt (VDate t) (get_prop this "_deadline" s)).
  destruct (adopts rt (VDate t) (get_prop this "_deadline" s)); [|done].
  unfold modify, gets, setTimeout.
  rewrite get_prop_write_eq by (rewrite ts_derived_length; lia).
  by destruct t.
Qed.

Lemma ts_withValues_object this v s :
  is_object v = true →
  TS.withValues rt this v s
  = Ret (length (ctxs s)) (TS.values_state rt this v s).
Proof. intros H. unfold TS.withValues. rewrite H. reflexivity. Qed.

(** *** Agreement *)

Lemma same_deadline_truthy dj dt :
  same_deadline dj dt → truthy dj = truthy dt.
Proof. by intros [[-> ->] | (x & -> & ->)]. Qed.



Lemma get_prop_write a a' k k' v s :
  get_prop a' k' (write_prop a k v s)
  = if decide (a = a' ∧ k = k' ∧ a < length (ctxs s)) then v
    else get_prop a' k' s.
Proof.
  case_decide as H.
  - destruct H as (<- & <- & H). by apply get_prop_write_eq.
  - destruct (decide (a = a' ∧ k = k')) as [[<- <-]|Hne].
    + assert (length (ctxs s) ≤ a)
        by (destruct (decide (a < length (ctxs s))); [naive_solver|lia]).
      rewrite !get_prop_ge; [done|lia|rewrite length_write_prop; lia].
    + apply get_prop_write_ne.
      destruct (decide (a = a')); [right|left]; naive_solver.
Qed.

Lemma get_prop_write_same a a' k v s :
  get_prop a' k (write_prop a k v s)
  = if decide (a = a' ∧ a < length (ctxs s)) then v else get_prop a' k s.
Proof.
  rewrite get_prop_write. case_decide as H1; case_decide as H2; try done.
  - destruct H2. by destruct H1 as (? & _ & ?).
  - destruct H1. by destruct H2.
Qed.



Lemma ts_root_length s :
  length (ctxs (TS.root_state rt s)) = S (length (ctxs s)).
Proof. unfold TS.root_state. cbv zeta. by heap_len. Qed.

Lemma ts_root_get_old a k s :
  a < length (ctxs s) → get_prop a k (TS.root_state rt s) = get_prop a k s.
Proof. intros Ha. unfold TS.root_state. cbv zeta. by heap_get. Qed.





End TS_lemmas.

Section TS_agreement.

Variable rt : runtime.

Implicit Types (s j : state) (a b p : nat) (k : string) (v : value).

















End TS_agreement.

Section Call_order.

Variable rt : runtime.

Implicit Types (s : state) (a b c : nat) (k : string).




(** X16: programs do not get stuck.  A program calls [set] under no name
    of a method or of a field of the emitter and replaces no prototype.
    Every state such a program reaches from the empty state has an acyclic
    listener graph (a bound [cancel] belongs to a context created after the
    one it is registered on), timers on contexts that exist, no context
    with an own property under the name of a method or of a field of the
    emitter, so that the methods called are those of the class, and no
    plain object with an own property [__proto__] that holds an object; in
    it [cancel] on any context and any step of the clock return: the
    recursion through the listeners ends. *)
Theorem reachable_total os t0 s :
  run rt os (init t0) = Some s →
  wf s
  ∧ pristine s
  ∧ (∀ a, ∃ s', cancel a s = Some s')
  ∧ (∀ d, ∃ s', tick d s = Some s').
Proof.
  intros Hrun.
  assert (wf s) as Hwf by (eapply run_wf; [apply wf_init|done]).
  split_and!; [done| | |].
  - eapply run_pristine; [apply pristine_init|done].
  - intros a. apply cancel_total, Hwf.
  - intros d. apply tick_total, Hwf.
Qed.

End Call_order.

Section TS_programs.

Variable rt : runtime.

Implicit Types (s : state) (a b p : nat) (k : string) (v : value).

Lemma ts_keeps_refl s : ts_keeps s s.
Proof. by split_and!. Qed.

Lemma ts_keeps_trans s1 s2 s3 :
  ts_keeps s1 s2 → ts_keeps s2 s3 → ts_keeps s1 s3.
Proof.
  intros (L1 & F1 & C1) (L2 & F2 & C2). split_and!.
  - lia.
  - intros a k Ha Hk. rewrite F2 by (done || lia). by apply F1.
  - intros a Ha. by apply C2, C1.
Qed.

Lemma ts_keeps_same (f : state → state) s :
  (∀ s, ctxs (f s) = ctxs s) → ts_keeps s (f s).
Proof.
  intros H. unfold ts_keeps, TS.cancelled, get_prop. rewrite H.
  by split_and!.
Qed.

Lemma ts_keeps_write a s : ts_keeps s (write_prop a "_cancelled" (VBool true) s).
Proof.
  split_and!.
  - by rewrite length_write_prop.
  - intros b k _ Hk. apply get_prop_write_ne. by right.
  - intros b Hb. unfold TS.cancelled in *. rewrite get_prop_write_same.
    by case_decide.
Qed.

Lemma ts_keeps_emit (invoke : listener → state → option state) a ls :
  (∀ l s1 s2, invoke l s1 = Some s2 → ts_keeps s1 s2) →
  ∀ s s', emit invoke a ls s = Some s' → ts_keeps s s'.
Proof.
  intros Hinv. induction ls as [|l ls IH]; intros s s'; simpl.
  - intros [= <-]. apply ts_keeps_refl.
  - destruct (invoke l (notify a l s)) as [s1|] eqn:E; simpl; [|done].
    intros Hem. eapply ts_keeps_trans; [|by apply IH].
    eapply ts_keeps_trans; [|by eapply Hinv].
    by apply (ts_keeps_same (notify a l)).
Qed.

Lemma ts_keeps_cancel_fuel n : ∀ a s s',
  TS.cancel_fuel n a s = Some s' → ts_keeps s s'.
Proof.
  induction n as [|n IH]; intros a s s'; simpl; [done|].
  intros Hem. eapply ts_keeps_trans; [apply (ts_keeps_write a)|].
  eapply ts_keeps_emit; [|exact Hem].
  intros [c|m] s1 s2; [apply IH|]. intros [= <-]. apply ts_keeps_refl.
Qed.

Lemma ts_keeps_run_timers target q : ∀ s s',
  TS.run_timers target q s = Some s' → ts_keeps s s'.
Proof.
  induction q as [|u q IH]; intros s s'; simpl.
  - intros [= <-]. by apply (ts_keeps_same (set_timers [])).
  - destruct (t_due u <=? target)%Z.
    + destruct (TS.cancel _ _) as [s1|] eqn:E; simpl; [|done].
      intros Hrun. eapply ts_keeps_trans; [|by apply IH].
      eapply ts_keeps_trans; [|by eapply ts_keeps_cancel_fuel].
      by apply (ts_keeps_same (λ s, set_now _ (set_timers q s))).
    + intros [= <-]. by apply (ts_keeps_same (set_timers (u :: q))).
Qed.

Lemma ts_keeps_derived p s : ts_keeps s (TS.derived_state rt p s).
Proof.
  split_and!.
  - rewrite ts_derived_length. lia.
  - intros a k Ha _. by apply ts_derived_get_old.
  - intros a Ha. unfold TS.cancelled in *.
    rewrite ts_derived_get_old; [done|].
    apply (get_prop_lt a "_cancelled"). by rewrite Ha.
Qed.

Lemma ts_keeps_new_write k v s s' :
  ts_keeps s s' → length (ctxs s') = S (length (ctxs s)) →
  ts_keeps s (write_prop (length (ctxs s)) k v s').
Proof.
  intros (L & F & C) L'. split_and!.
  - rewrite length_write_prop. lia.
  - intros a k' Ha Hk. rewrite get_prop_write_ne by (left; lia). by apply F.
  - intros a Ha. unfold TS.cancelled in *.
    assert (a < length (ctxs s))
      by (apply (get_prop_lt a "_cancelled"); by rewrite Ha).
    rewrite get_prop_write_ne by (left; lia). by apply C.
Qed.

Lemma ts_keeps_deadline p z s : ts_keeps s (TS.deadline_state rt p z s).
Proof.
  unfold TS.deadline_state. cbv zeta.
  destruct (adopts _ _ _); [|apply ts_keeps_derived].
  eapply ts_keeps_trans; [|by apply (ts_keeps_same (set_timers _))].
  apply ts_keeps_new_write; [apply ts_keeps_derived|apply ts_derived_length].
Qed.

Lemma ts_keeps_derive d p s :
  p < length (ctxs s) → ts_keeps s (final (TS.derive rt d p s)).
Proof.
  intros Hp. destruct d as [|w|w|w]; cbn [TS.derive].
  - rewrite ts_construct_ctx. apply ts_keeps_derived.
  - destruct w; try apply ts_keeps_refl.
    rewrite ts_withDeadline_date by done. apply ts_keeps_deadline.
  - destruct w as [| | |[z| |]| | | |]; try apply ts_keeps_refl.
    change (TS.withTimeout rt p (VNum (NInt z)) s)
      with (TS.withDeadline rt p (new_Date (now s + z)) s).
    unfold new_Date. rewrite ts_withDeadline_date by done.
    apply ts_keeps_deadline.
  - destruct (is_object w) eqn:E.
    + rewrite ts_withValues_object by done. cbn [final].
      unfold TS.values_state. cbv zeta.
      apply ts_keeps_new_write;
        [|by rewrite ctxs_set_objs, ts_derived_length].
      eapply ts_keeps_trans; [apply ts_keeps_derived|].
      by apply (ts_keeps_same (set_objs _)).
    + unfold TS.withValues. rewrite E. apply ts_keeps_refl.
Qed.

Lemma ts_keeps_root s : ts_keeps s (TS.root_state rt s).
Proof.
  split_and!.
  - rewrite ts_root_length. lia.
  - intros a k Ha _. by apply ts_root_get_old.
  - intros a Ha. unfold TS.cancelled in *.
    rewrite ts_root_get_old; [done|].
    apply (get_prop_lt a "_cancelled"). by rewrite Ha.
Qed.

Lemma ts_keeps_on a (l : listener) s : ts_keeps s (on a l s).
Proof.
  unfold ts_keeps, TS.cancelled. rewrite length_on.
  split_and!; [done|intros; apply get_prop_on|intros b; by rewrite get_prop_on].
Qed.

Lemma ts_exec_keeps (o : op) s s' : TS.exec rt o s = Some s' → ts_keeps s s'.
Proof.
  intros Hex.
  assert (∀ d p, live (VCtx p) s = true →
            ts_keeps s (final (TS.derive rt d p s))) as Hder.
  { intros d p Hp. apply bool_decide_eq_true in Hp.
    by apply ts_keeps_derive. }
  destruct o as [parent|this key v|this dl|this ms|this vs|this|this n|dt|m|l k v];
    simpl in Hex.
  - destruct (live parent s) eqn:Hl; [|done]. injection Hex as <-.
    destruct (truthy parent) eqn:Et.
    + destruct (is_context parent) eqn:Ec.
      * destruct parent; try done. by apply (Hder DNew).
      * unfold TS.construct. rewrite Et, Ec. apply ts_keeps_refl.
    + rewrite ts_construct_root by done. apply ts_keeps_root.
  - done.
  - destruct (bool_decide _) eqn:Hl; [|done]. injection Hex as <-.
    by apply (Hder (DDeadline dl)).
  - destruct (bool_decide _) eqn:Hl; [|done]. injection Hex as <-.
    by apply (Hder (DTimeout ms)).
  - destruct (bool_decide _) eqn:Hl; [|done].
    destruct (live vs s); [|done]. injection Hex as <-.
    by apply (Hder (DValues vs)).
  - destruct (bool_decide _); [|done]. by eapply ts_keeps_cancel_fuel.
  - destruct (bool_decide _); [|done]. injection Hex as <-.
    apply ts_keeps_on.
  - destruct (0 <=? dt)%Z; [|done]. unfold TS.tick in Hex.
    destruct (TS.run_timers _ _ _) as [s1|] eqn:E; [|done].
    simpl in Hex. injection Hex as <-.
    eapply ts_keeps_trans; [by eapply ts_keeps_run_timers|].
    by apply (ts_keeps_same (set_now _)).
  - destruct (proto_entry m); [done|]. injection Hex as <-.
    by apply (ts_keeps_same (set_objs _)).
  - destruct (bool_decide _); [|done]. simpl in Hex.
    destruct (negb (String.eqb k "__proto__") || unboxed v); [|done].
    injection Hex as <-. apply (ts_keeps_same (obj_write l k v)).
    intros st. unfold obj_write. by destruct (String.eqb k "__proto__").
Qed.

Lemma ts_run_keeps os : ∀ s s', TS.run rt os s = Some s' → ts_keeps s s'.
Proof.
  induction os as [|o os IH]; intros s s'; simpl.
  - intros [= <-]. apply ts_keeps_refl.
  - destruct (TS.exec rt o s) as [s1|] eqn:E; [|done]. simpl. intros H.
    eapply ts_keeps_trans; [by eapply ts_exec_keeps|by apply IH].
Qed.

Lemma ts_derive_inherits d p s c s' k :
  p < length (ctxs s) → k = "_id" ∨ k = "_cancelled" →
  TS.derive rt d p s = Ret c s' →
  c = length (ctxs s) ∧ get_prop c k s' = get_prop p k s.
Proof.
  intros Hp Hk.
  assert (k = "_id" ∨ k = "_cancelled" ∨ k = "_deadline") as Hk'
    by (destruct Hk; auto).
  assert (k ≠ "_deadline" ∧ k ≠ "_values") as [Hk1 Hk2]
    by (destruct Hk as [-> | ->]; done).
  assert (∀ z, get_prop (length (ctxs s)) k (TS.deadline_state rt p z s)
               = get_prop p k s) as Hdl.
  { intros z. unfold TS.deadline_state. cbv zeta.
    destruct (adopts _ _ _); [|by apply ts_derived_get_new].
    change (get_prop ?a ?k (set_timers ?q ?s)) with (get_prop a k s).
    rewrite get_prop_write_ne by (by right). by apply ts_derived_get_new. }
  destruct d as [|w|w|w]; cbn [TS.derive].
  - rewrite ts_construct_ctx. intros [= <- <-].
    split; [done|]. by apply ts_derived_get_new.
  - destruct w; try done.
    rewrite ts_withDeadline_date by done. by intros [= <- <-].
  - destruct w as [| | |[z| |]| | | |]; try done.
    change (TS.withTimeout rt p (VNum (NInt z)) s)
      with (TS.withDeadline rt p (new_Date (now s + z)) s).
    unfold new_Date. rewrite ts_withDeadline_date by done.
    by intros [= <- <-].
  - destruct (is_object w) eqn:E.
    + rewrite ts_withValues_object by done. intros [= <- <-].
      split; [done|]. unfold TS.values_state. cbv zeta.
      rewrite get_prop_write_ne by (by right).
      change (get_prop ?a ?k (set_objs ?f ?s)) with (get_prop a k s).
      by apply ts_derived_get_new.
    + unfold TS.withValues. by rewrite E.
Qed.

(** X18: in the TypeScript class, which has no [set], [cancelled] never
    goes back: through every program over the class, a context that is
    cancelled stays cancelled, and a context derived from it afterwards is
    cancelled from the start. *)
Theorem ts_cancelled_monotonic os s s' a :
  TS.run rt os s = Some s' → TS.cancelled a s = VBool true →
  TS.cancelled a s' = VBool true
  ∧ ∀ d c s'', TS.derive rt d a s' = Ret c s'' →
               TS.cancelled c s'' = VBool true.
Proof.
  intros Hrun Ha.
  destruct (ts_run_keeps _ _ _ Hrun) as (L & _ & C).
  pose proof (C a Ha) as Ha'. split; [done|].
  intros d c s'' Hd.
  assert (a < length (ctxs s')) as Hlt
    by (apply (get_prop_lt a "_cancelled"); unfold TS.cancelled in Ha';
        by rewrite Ha').
  destruct (ts_derive_inherits d a s' c s'' "_cancelled" Hlt (or_intror eq_refl)
              Hd) as [_ E].
  unfold TS.cancelled in *. by rewrite E.
Qed.

(** X19: in the TypeScript class the identifier, the deadline and the
    values of a context are fixed at construction: through every program
    over the class each context that exists keeps the [id], the [deadline]
    and the [values] object its accessors return, and a context derived
    from it afterwards has its [id]. *)
Theorem ts_attributes_fixed os s s' a :
  TS.run rt os s = Some s' → a < length (ctxs s) →
  TS.id a s' = TS.id a s
  ∧ TS.deadline a s' = TS.deadline a s
  ∧ TS.values a s' = TS.values a s
  ∧ ∀ d c s'', TS.derive rt d a s' = Ret c s'' → TS.id c s'' = TS.id a s.
Proof.
  intros Hrun Ha. destruct (ts_run_keeps _ _ _ Hrun) as (L & F & _).
  unfold TS.id, TS.deadline, TS.values.
  split_and!; [by apply F..|].
  intros d c s'' Hd.
  destruct (ts_derive_inherits d a s' c s'' "_id" ltac:(lia) (or_introl eq_refl)
              Hd) as [_ E].
  rewrite E. by apply F.
Qed.

End TS_programs.

(** ** The further properties on concrete programs *)

Lemma run_family :
  run rt0 [ONew VUndef; ONew (VCtx 0); ONew (VCtx 0); ONew (VCtx 1); OOn 1 7]
    (init 0) = Some family.
Proof. vm_compute; reflexivity. Qed.

Lemma wf_family : wf family.
Proof. exact (run_wf rt0 _ _ _ (wf_init 0) run_family). Qed.

Lemma family_children : listeners_of 0 family = [LCancel 1; LCancel 2].
Proof. vm_compute; reflexivity. Qed.


Lemma tally_length n : String.length (tally n) = S n.
Proof.
  induction n as [|n IH]; [done|]. cbn [tally].
  change (String.length ("u" +:+ tally n)) with (S (String.length (tally n))).
  by rewrite IH.
Qed.

Lemma tally_inj n m : tally n = tally m → n = m.
Proof.
  intros H. apply (f_equal String.length) in H.
  rewrite !tally_length in H. lia.
Qed.



(** X1 at the first child of [family]: the root is not cancelled. *)
Lemma cancel_one_way_witness :
  ∃ s', cancel 1 family = Some s'
        ∧ get_prop 0 "cancelled" s' = VBool false
        ∧ timers s' = timers family.
Proof.
  destruct (cancel 1 family) as [s'|] eqn:E; [|by vm_compute in E].
  exists s'. split; [reflexivity|].
  destruct (cancel_one_way 1 family s' E) as (_ & Hup & _ & _ & T & _).
  split; [|exact T].
  rewrite (Hup (proj1 wf_family) 0 "cancelled") by lia.
  vm_compute; reflexivity.
Defined.

(** X2 at the root of [family], cancelled twice. *)
Lemma cancel_again_witness :
  wf_heap family ∧ 0 < length (ctxs family)
  ∧ ∃ s1 s2, cancel 0 family = Some s1 ∧ cancel 0 s1 = Some s2
             ∧ (∀ b k, get_prop b k s2 = get_prop b k s1)
             ∧ ∃ tr, trace s2 = trace s1 ++ tr
                     ∧ filter (λ e, e.1 = 0) tr
                       = [(0, LCancel 1); (0, LCancel 2)].
Proof.
  assert (0 < length (ctxs family)) as H1 by (vm_compute; lia).
  split; [exact (proj1 wf_family)|]. split; [exact H1|].
  destruct (cancel 0 family) as [s1|] eqn:E1; [|by vm_compute in E1].
  assert (∃ s2, cancel 0 s1 = Some s2) as [s2 E2].
  { apply cancel_total. eapply (wf_heap_confined (λ _, True)).
    - by eapply cancel_confined.
    - exact (proj1 wf_family). }
  exists s1, s2. split; [reflexivity|]. split; [exact E2|].
  destruct (cancel_again 0 family s1 s2 (proj1 wf_family) H1 E1 E2)
    as (Hsame & tr & Htr & Hf).
  split; [exact Hsame|]. exists tr. split; [exact Htr|].
  rewrite Hf, family_children. reflexivity.
Defined.



(** X5 at [root.withDeadline(new Date(50))], then [withDeadline(new
    Date(80))], [withTimeout(20)] and the constructor, at clock 0. *)
Lemma deadline_chain_earliest_witness :
  let s := final (withDeadline rt0 0 (new_Date 50) one_root) in
  1 < length (ctxs s) ∧ get_prop 1 "deadline" s = VDate (Some 50%Z)
  ∧ ∃ c' s', derive_chain rt0 [DDeadline (new_Date 80);
                               DTimeout (VNum (NInt 20)); DNew] 1 s
             = Ret c' s'
             ∧ get_prop c' "deadline" s' = VDate (Some 20%Z).
Proof.
  intros s.
  assert (1 < length (ctxs s)) as H1 by (vm_compute; lia).
  assert (get_prop 1 "deadline" s = VDate (Some 50%Z)) as H2
    by (vm_compute; reflexivity).
  split; [exact H1|]. split; [exact H2|].
  destruct (derive_chain rt0 [DDeadline (new_Date 80);
                              DTimeout (VNum (NInt 20)); DNew] 1 s)
    as [c' s'|msg s'|s'] eqn:E; [|by vm_compute in E..].
  exists c', s'. split; [reflexivity|].
  destruct (deadline_chain_earliest rt0 _ 1 s c' s' 50%Z H1 H2 E) as (Hd & _).
  rewrite Hd. vm_compute; reflexivity.
Defined.


Lemma pristine_one_root : pristine one_root.
Proof. apply (root_pristine rt0), pristine_init. Qed.

(** X7 at [root.withTimeout(10)]. *)
Lemma derive_frame_witness :
  pristine one_root ∧ 0 < length (ctxs one_root)
  ∧ ∃ c s', derive rt0 (DTimeout (VNum (NInt 10))) 0 one_root = Ret c s'
            ∧ c = 1 ∧ trace s' = trace one_root
            ∧ listeners_of 0 s' = [LCancel 1]
            ∧ get_prop 0 "deadline" s' = VNull.
Proof.
  assert (0 < length (ctxs one_root)) as H1 by (vm_compute; lia).
  split; [exact pristine_one_root|]. split; [exact H1|].
  destruct (derive rt0 (DTimeout (VNum (NInt 10))) 0 one_root)
    as [c s'|msg s'|s'] eqn:E; [|by vm_compute in E..].
  exists c, s'. split; [reflexivity|].
  destruct (derive_frame rt0 _ 0 one_root c s' pristine_one_root H1 E)
    as (Hc & _ & Hk & _ & Hl & _ & Htr & _).
  split; [exact Hc|]. split; [exact Htr|].
  split; [rewrite Hl, Hc; vm_compute; reflexivity|].
  rewrite (Hk 0 "deadline" H1) by reflexivity. vm_compute; reflexivity.
Defined.

(** X8 at [root.withValues({one: 1, two: 2})], the constructor and
    [withValues({two: 'a', three: 'b'})]. *)
Lemma values_chain_witness :
  0 < length (ctxs with_objects) ∧ get_prop 0 "values" with_objects = VObj 2
  ∧ 2 < length (objs with_objects)
  ∧ ∃ c' s' o', derive_chain rt0 [DValues (VObj 0); DNew; DValues (VObj 1)]
                  0 with_objects = Ret c' s'
                ∧ get_prop c' "values" s' = VObj o'
                ∧ obj_at o' s'
                  = <["one" := VNum (NInt 1)]>
                      (<["two" := VStr "a"]> {["three" := VStr "b"]}).
Proof.
  assert (0 < length (ctxs with_objects)) as H1 by (vm_compute; lia).
  assert (get_prop 0 "values" with_objects = VObj 2) as H2
    by (vm_compute; reflexivity).
  assert (2 < length (objs with_objects)) as H3 by (vm_compute; lia).
  assert (Forall (plain_arg with_objects)
            [DValues (VObj 0); DNew; DValues (VObj 1)]) as H4.
  { repeat constructor; vm_compute; lia. }
  split; [exact H1|]. split; [exact H2|]. split; [exact H3|].
  destruct (derive_chain rt0 [DValues (VObj 0); DNew; DValues (VObj 1)]
              0 with_objects) as [c' s'|msg s'|s'] eqn:E;
    [|by vm_compute in E..].
  destruct (values_chain rt0 _ 0 with_objects c' s' 2 H1 H2 H3 H4 E)
    as (o' & Ho' & _ & Hat & _).
  exists c', s', o'. split; [reflexivity|]. split; [exact Ho'|].
  assert ([DValues (VObj 0); DNew; DValues (VObj 1)] ≠ []) as Hne
    by discriminate.
  rewrite (proj2 (Hat Hne)). vm_compute; reflexivity.
Defined.


(** X10 at two roots with a derivation in between. *)
Lemma root_ids_distinct_witness :
  ∃ s2 b s3, run rt0 [ONew (VCtx 0)] one_root = Some s2
             ∧ construct rt0 VNull s2 = Ret b s3
             ∧ get_prop b "id" s3 ≠ get_prop 0 "id" one_root.
Proof.
  destruct (run rt0 [ONew (VCtx 0)] one_root) as [s2|] eqn:R;
    [|by vm_compute in R].
  destruct (construct rt0 VNull s2) as [b s3|msg s3|s3] eqn:E.
  2, 3: rewrite (construct_root rt0) in E by reflexivity; discriminate E.
  exists s2, b, s3. split; [reflexivity|]. split; [exact E|].
  assert (truthy VUndef = false) as H1 by reflexivity.
  assert (truthy VNull = false) as H2 by reflexivity.
  assert (construct rt0 VUndef (init 0) = Ret 0 one_root) as H3
    by (vm_compute; reflexivity).
  pose proof (root_ids_distinct rt0 VUndef VNull (init 0) 0 one_root
                [ONew (VCtx 0)] s2 b s3 tally_inj H1 H2 H3 R E)
    as (_ & _ & H).
  exact H.
Defined.

(** X11 at a program that derives with a deadline, cancels and lets the
    clock run: the deadline of the derived context stays. *)
Lemma attributes_stable_witness :
  let s := final (withDeadline rt0 0 (new_Date 50) one_root) in
  pristine s ∧ 1 < length (ctxs s)
  ∧ ∃ s', run rt0 [OCancel 0; OWithValues 1 (VDate None); OTick 60;
                   OSet 1 "cancelled" (VBool false)] s = Some s'
          ∧ get_prop 1 "deadline" s' = new_Date 50.
Proof.
  intros s.
  assert (pristine s) as H0.
  { apply (derive_pristine rt0 (DDeadline (new_Date 50)) 0 one_root 1 s);
      [vm_compute; lia|exact pristine_one_root|vm_compute; reflexivity]. }
  assert (1 < length (ctxs s)) as H1 by (vm_compute; lia).
  split; [exact H0|]. split; [exact H1|].
  destruct (run rt0 [OCancel 0; OWithValues 1 (VDate None); OTick 60;
                     OSet 1 "cancelled" (VBool false)] s) as [s'|] eqn:R;
    [|by vm_compute in R].
  exists s'. split; [reflexivity|].
  destruct (attributes_stable rt0 _ s s' 1 H0 R H1) as (_ & _ & Hk & _).
  rewrite (Hk "deadline"); [vm_compute; reflexivity|discriminate|reflexivity|].
  repeat constructor; simpl; try tauto. discriminate.
Defined.





(** X16 at the program of [family]. *)
Lemma reachable_total_witness :
  pristine family ∧ ∃ s', cancel 0 family = Some s'.
Proof.
  destruct (reachable_total rt0 _ 0%Z family run_family)
    as (_ & Hp & Hc & _).
  split; [exact Hp|exact (Hc 0)].
Defined.


(** X18 at [root.cancel()] followed by a derivation, a step of the clock
    and another [cancel]. *)
Lemma ts_cancelled_monotonic_witness :
  ∃ s s', TS.cancel 0 ts_one_root = Some s
          ∧ TS.cancelled 0 s = VBool true
          ∧ TS.run rt0 [OWithTimeout 0 (VNum (NInt 10)); OTick 20; OCancel 1]
              s = Some s'
          ∧ TS.cancelled 0 s' = VBool true.
Proof.
  destruct (TS.cancel 0 ts_one_root) as [s|] eqn:E; [|by vm_compute in E].
  destruct (TS.run rt0 [OWithTimeout 0 (VNum (NInt 10)); OTick 20; OCancel 1]
              s) as [s'|] eqn:R;
    [|by vm_compute in E; injection E as <-; vm_compute in R].
  assert (TS.cancelled 0 s = VBool true) as H.
  { vm_compute in E. injection E as <-. vm_compute; reflexivity. }
  exists s, s'. split; [reflexivity|]. split; [exact H|].
  split; [exact R|].
  exact (proj1 (ts_cancelled_monotonic rt0 _ s s' 0 R H)).
Defined.

(** X19 at the root, through a derivation with a deadline, [cancel] and a
    step of the clock. *)
Lemma ts_attributes_fixed_witness :
  0 < length (ctxs ts_one_root)
  ∧ ∃ s', TS.run rt0 [OWithDeadline 0 (new_Date 50); OCancel 0; OTick 60]
            ts_one_root = Some s'
          ∧ TS.id 0 s' = VStr "u" ∧ TS.deadline 0 s' = VUndef.
Proof.
  assert (0 < length (ctxs ts_one_root)) as H1 by (vm_compute; lia).
  split; [exact H1|].
  destruct (TS.run rt0 [OWithDeadline 0 (new_Date 50); OCancel 0; OTick 60]
              ts_one_root) as [s'|] eqn:R; [|by vm_compute in R].
  exists s'. split; [reflexivity|].
  destruct (ts_attributes_fixed rt0 _ ts_one_root s' 0 R H1)
    as (Hid & Hdl & _).
  rewrite Hid, Hdl. split; vm_compute; reflexivity.
Defined.


(** ** The test suite of the TypeScript class, on the model *)

(** 'should not be cancelled', 'should not have a deadline' and 'should
    have empty values'. *)
Example ts_test_root_defaults :
  TS.cancelled 0 ts_one_root = VBool false
  ∧ TS.deadline 0 ts_one_root = VUndef
  ∧ TS.values 0 ts_one_root = VObj 0
  ∧ obj_at 0 ts_one_root = ∅.
Proof. vm_compute. tauto. Qed.

(** 'should ignore given date if current deadline is sooner'. *)
Example ts_test_deadline_sooner :
  ∃ s, TS.run rt0 [ONew VUndef; OWithDeadline 0 (new_Date 0);
                   OWithDeadline 1 (new_Date 1)] (init 0) = Some s
       ∧ TS.deadline 1 s = new_Date 0
       ∧ TS.deadline 2 s = new_Date 0.
Proof. eexists. split; [vm_compute; reflexivity|]. vm_compute. tauto. Qed.

(** 'should cancel when deadline is reached'. *)
Example ts_test_deadline_reached :
  ∃ s1 s2, TS.run rt0 [ONew VUndef; OWithDeadline 0 (new_Date 100); OOn 1 7;
                       OTick 99] (init 0) = Some s1
           ∧ TS.cancelled 1 s1 = VBool false
           ∧ trace s1 = []
           ∧ TS.exec rt0 (OTick 1) s1 = Some s2
           ∧ TS.cancelled 1 s2 = VBool true
           ∧ trace s2 = [(0, LCancel 1); (1, LSpy 7)].
Proof.
  eexists _, _. split; [vm_compute; reflexivity|].
  split; [vm_compute; reflexivity|]. split; [vm_compute; reflexivity|].
  split; [vm_compute; reflexivity|]. vm_compute. tauto.
Qed.
